(** * Best Ball Co-Draft Explorer: the draft model and its two analyzers

    A shallow embedding of [helpers.py]: the snake-draft slot assignment
    ([slot], [get_data]) and the two queries over the enriched frame
    ([next_pick_distribution], [co_draft_multiple]); and of what the page
    of [main.py] computes around them (the offered names, the co-draft
    section with its roster table).

    Conventions of the embedding.
    - A data frame is the list of its rows, in row order; its index is the
      default [RangeIndex], so the label of a row is its position.
    - Integer columns are [Z], standing for int64 values whose sums and
      products here stay within int64; player names are strings.  A cell
      of the raw [OVERALLPICKNUM] column may be missing (pandas' NaN),
      which is [None].
    - The true division of [get_data] is the one of float64: its operands
      and its quotient are rounded to the nearest double, ties to even.
      Doubles are the rationals they denote ([Q]); the exponent range is
      not modelled, no pick number being near it.
    - The percentages of the two analyzers are taken in exact rational
      arithmetic; the floats of the source agree with them up to rounding.
    - A Python exception is the [Raise] outcome. *)

From Stdlib Require Import ZArith QArith Qround Qpower Lia Lqa.
From Stdlib Require SpecFloat.
From stdpp Require Import base option list sorting gmap strings.

Local Open Scope Z_scope.

(** ** Outcomes of fallible code *)

Inductive exn : Type :=
  | ValueError (msg : string)
  | IndexError (msg : string)
  | TypeError (msg : string).

Inductive outcome (A : Type) : Type :=
  | Return (a : A)
  | Raise (e : exn).
Arguments Return {A} a.
Arguments Raise {A} e.

#[global] Instance outcome_ret : MRet outcome := @Return.
#[global] Instance outcome_bind : MBind outcome := λ A B f m,
  match m with
  | Return a => f a
  | Raise e => Raise e
  end.

(** ** The frames *)

Definition NUM_TEAMS : Z := 12.

(** A row of [drafts.csv]. *)
Record Draft : Type := mkDraft {
  raw_PLAYERNAME : string;
  raw_SNAKEDRAFTNUM : Z;
  raw_OVERALLPICKNUM : option Z;
}.

(** A row of [player_info.csv], restricted to the four merged columns. *)
Record PlayerInfo : Type := mkPlayerInfo {
  Name : string;
  Team : string;
  Position : string;
  ID : Z;
}.

(** A row of [merged_df] at the moment [slot] is applied to it: the draft
    columns, the joined metadata (absent for an unmatched name) and the two
    columns [slot] reads. *)
Record Pick : Type := mkPick {
  PLAYERNAME : string;
  SNAKEDRAFTNUM : Z;
  OVERALLPICKNUM : Z;
  player_info : option PlayerInfo;
  round : Z;
  pick_in_round : Z;
}.

(** A row of the enriched frame, with its [draft_slot] column. *)
Record Row : Type := mkRow {
  pick_of :> Pick;
  draft_slot : Z;
}.

(** ** Draft model builder *)

(** [slot(row)]: Python's [%] and Rocq's [mod] both take the sign of the
    divisor, so [round % 2 == 1] is [round mod 2 = 1] on every integer. *)
Definition slot (row : Pick) : outcome Z :=
  if decide (round row mod 2 = 1) then
    (* odd round: forward order *)
    Return (pick_in_round row)
  else
    (* even round: reversed order *)
    Return (NUM_TEAMS - pick_in_round row + 1).

(** [drafts.merge(player_info[...], left_on="PLAYERNAME", right_on="Name",
    how="left")]: every draft row, in order, once per matching metadata row,
    and once with no metadata when nothing matches. *)
Definition merge_player_info (drafts : list Draft) (infos : list PlayerInfo)
    : list (Draft * option PlayerInfo) :=
  d ← drafts;
  match filter (λ i, Name i = raw_PLAYERNAME d) infos with
  | [] => [(d, None)]
  | matches => (λ i, (d, Some i)) <$> matches
  end.

(** *** Float64 arithmetic

    A double with a 53-bit significand: a positive rational [x] of the
    binade [e], that is with [2^e <= x < 2^(e+1)], is rounded to the
    nearest multiple of [2^(e-52)], a tie going to the even multiple. *)
Definition pow2 (e : Z) : Q := (2 ^ e)%Q.

Definition binade (x : Q) : Z :=
  let e0 := Z.log2 (Qnum x) - Z.log2 (Zpos (Qden x)) in
  if Qle_bool (pow2 e0) x then e0 else e0 - 1.

Definition round_half_even (t : Q) : Z :=
  let f := Qfloor t in
  match (t - inject_Z f ?= 1 # 2)%Q with
  | Lt => f
  | Gt => f + 1
  | Eq => if Z.even f then f else f + 1
  end.

Definition round53 (x : Q) : Q :=
  let e := binade x in
  (inject_Z (round_half_even (x * pow2 (52 - e))) * pow2 (e - 52))%Q.

(** The double nearest to a rational. *)
Definition float64 (x : Q) : Q :=
  match (x ?= 0)%Q with
  | Eq => 0%Q
  | Gt => round53 x
  | Lt => (- round53 (- x))%Q
  end.

(** [np.ceil(x / NUM_TEAMS)] on a present cell: the int64 [x] and the
    constant are converted to doubles, the quotient is rounded to a double,
    and its ceiling, an integer-valued double, is what [.astype(int)]
    turns into an integer. *)
Definition np_ceil_div (x : Z) : Z :=
  Qceiling (float64 (float64 (inject_Z x) / inject_Z NUM_TEAMS)).

(** What [.astype(int)] raises on a column holding a missing value. *)
Definition cast_error : exn :=
  ValueError "Cannot convert non-finite values (NA or inf) to integer".

(** The three column assignments of [get_data], taken row by row.  The
    cast of the [round] column is the only step that can fail: on a
    missing pick number the quotient and its ceiling are NaN, which
    [.astype(int)] refuses. *)
Definition derive (m : Draft * option PlayerInfo) : outcome Row :=
  let '(d, i) := m in
  match raw_OVERALLPICKNUM d with
  | None => Raise cast_error
  | Some n =>
      let round := np_ceil_div n in
      let pick_in_round := n - (round - 1) * NUM_TEAMS in
      let row := mkPick (raw_PLAYERNAME d) (raw_SNAKEDRAFTNUM d) n i
                        round pick_in_round in
      draft_slot ← slot row;
      Return (mkRow row draft_slot)
  end.

(** [get_data()], the two frames it reads from disk being its arguments. *)
Definition get_data (drafts : list Draft) (infos : list PlayerInfo)
    : outcome (list Row) :=
  mapM derive (merge_player_info drafts infos).

(** ** Next-pick analyzer *)

(** A row of [occ]: the occurrence's label in [df] and its three columns. *)
Record Occ : Type := mkOcc {
  occ_index : nat;
  occ_draft : Z;
  occ_slot : Z;
  pick_num : Z;
}.

(** [df.loc[df["PLAYERNAME"] == player, [...]].reset_index(drop=False)]. *)
Definition occurrences (df : list Row) (player : string) : list Occ :=
  omap (λ ir : nat * Row,
          if decide (PLAYERNAME ir.2 = player)
          then Some (mkOcc ir.1 (SNAKEDRAFTNUM ir.2) (draft_slot ir.2)
                           (OVERALLPICKNUM ir.2))
          else None)
       (imap pair df).

(** A row of [merged]: the occurrence and, when the left join found a row
    of the same team, that row's pick number and player. *)
Record Merged : Type := mkMerged {
  merged_occ : Occ;
  merged_candidate : option (Z * string);
}.

Definition same_key (o : Occ) (r : Row) : Prop :=
  SNAKEDRAFTNUM r = occ_draft o ∧ draft_slot r = occ_slot o.

#[global] Instance same_key_dec o r : Decision (same_key o r).
Proof. unfold same_key. apply _. Defined.

(** [occ.merge(df[[...]], on=["SNAKEDRAFTNUM", "draft_slot"], how="left")]. *)
Definition merge_rows (o : Occ) (df : list Row) : list Merged :=
  match filter (same_key o) df with
  | [] => [mkMerged o None]
  | matches =>
      (λ r : Row, mkMerged o (Some (OVERALLPICKNUM r, PLAYERNAME r))) <$> matches
  end.

Definition merge_on_team (occ : list Occ) (df : list Row) : list Merged :=
  o ← occ; merge_rows o df.

(** A row of [filtered]: it keeps the label it had in [merged]. *)
Record Cand : Type := mkCand {
  cand_label : nat;
  cand_occ : Occ;
  candidate_pick : Z;
  next_player : string;
}.

Definition keep_later (lm : nat * Merged) : option Cand :=
  match merged_candidate lm.2 with
  | Some (c, p) =>
      if decide (pick_num (merged_occ lm.2) < c)
      then Some (mkCand lm.1 (merged_occ lm.2) c p)
      else None
  | None => None (* a comparison with NaN is false *)
  end.

(** [merged[merged["candidate_pick"] > merged["pick_num"]]], the rows of
    [merged] being labelled from [off] on. *)
Definition later_from (off : nat) (merged : list Merged) : list Cand :=
  omap keep_later (imap (λ i m, (off + i, m)%nat) merged).

Definition later_only (merged : list Merged) : list Cand :=
  later_from 0 merged.

(** The group keys of [groupby("occ_index")], which sorts them. *)
Definition group_keys (filtered : list Cand) : list nat :=
  merge_sort (≤)%nat (remove_dups ((occ_index ∘ cand_occ) <$> filtered)).

Definition group (filtered : list Cand) (key : nat) : list Cand :=
  filter (λ c, occ_index (cand_occ c) = key) filtered.

(** [idxmin] of a group: the label of the first row holding the least
    candidate pick. *)
Definition first_min (best : Cand) (g : list Cand) : Cand :=
  foldl (λ b c, if decide (candidate_pick c < candidate_pick b) then c else b)
        best g.

Definition idxmin (g : list Cand) : option nat :=
  match g with
  | [] => None
  | c :: g' => Some (cand_label (first_min c g'))
  end.

(** [filtered.groupby("occ_index")["candidate_pick"].idxmin()]. *)
Definition groupby_idxmin (filtered : list Cand) : list nat :=
  omap (λ key, idxmin (group filtered key)) (group_keys filtered).

(** [filtered.loc[idx, "next_player"]]. *)
Definition loc_next_player (filtered : list Cand) (idx : list nat) : list string :=
  omap (λ l, (next_player ∘ snd) <$> list_find (λ c, cand_label c = l) filtered) idx.

(** The series [next_players]: one entry per observation. *)
Definition next_players (df : list Row) (player : string) : list string :=
  let occ := occurrences df player in
  let merged := merge_on_team occ df in
  let filtered := later_only merged in
  let idx := groupby_idxmin filtered in
  loc_next_player filtered idx.

(** [value_counts()]: each distinct value with its number of occurrences,
    by descending count.  The order among equal counts is the one this
    sort happens to give; no statement below relies on it. *)
Definition count_of (v : string) (s : list string) : nat :=
  length (filter (λ x, x = v) s).

Definition count_ge (a b : string * nat) : Prop := (b.2 ≤ a.2)%nat.

#[global] Instance count_ge_dec : RelDecision count_ge.
Proof. intros a b. unfold count_ge. apply _. Defined.

Definition value_counts (s : list string) : list (string * nat) :=
  merge_sort count_ge
             ((λ v, (v, count_of v s)) <$> remove_dups s).

(** A row of the returned table. *)
Record DistRow : Type := mkDistRow {
  dist_next_player : string;
  count : nat;
  pct : Q;
}.

Definition Q_of_nat (n : nat) : Q := inject_Z (Z.of_nat n).

(** The last four statements of [next_pick_distribution]. *)
Definition distribution (s : list string) : list DistRow :=
  let dist := value_counts s in
  let total := sum_list (snd <$> dist) in
  (λ vc : string * nat,
     mkDistRow vc.1 vc.2 (Q_of_nat vc.2 / Q_of_nat total * 100)%Q) <$> dist.

Definition next_pick_distribution (df : list Row) (player : string)
    : list DistRow :=
  let occ := occurrences df player in
  match occ with
  | [] => []
  | _ :: _ =>
      let merged := merge_on_team occ df in
      let filtered := later_only merged in
      match filtered with
      | [] => []
      | _ :: _ =>
          let idx := groupby_idxmin filtered in
          distribution (loc_next_player filtered idx)
      end
  end.

(** ** Co-draft analyzer *)

Record CoDraft : Type := mkCoDraft {
  players : list string;
  num_first : nat;
  num_all : nat;
  pct_together : Q;
  common_pairs : gset (Z * Z);
}.

(** [set(zip(df.loc[mask, "SNAKEDRAFTNUM"], df.loc[mask, "draft_slot"]))]. *)
Definition pair_set (df : list Row) (player : string) : gset (Z * Z) :=
  list_to_set
    (zip ((λ r : Row, SNAKEDRAFTNUM r)
            <$> filter (λ r : Row, PLAYERNAME r = player) df)
         (draft_slot <$> filter (λ r : Row, PLAYERNAME r = player) df)).

(** [set.intersection] unpacked over [pair_sets]: the unbound method needs
    its receiver, the first set, and intersects it with the others. *)
Definition set_intersection (sets : list (gset (Z * Z))) : outcome (gset (Z * Z)) :=
  match sets with
  | [] => Raise (TypeError "unbound method set.intersection() needs an argument")
  | s :: rest => Return (foldl (∩) s rest)
  end.

Definition co_draft_multiple (df : list Row) (players : list string)
    : outcome CoDraft :=
  match players with
  | [] => Raise (ValueError "Please supply at least one player name.")
  | _ :: _ =>
      let pair_sets := pair_set df <$> players in
      (* the drafts where the first player was picked *)
      first_set ← from_option Return (Raise (IndexError "list index out of range"))
                              (pair_sets !! 0%nat);
      (* intersection across all players *)
      common ← set_intersection pair_sets;
      let num_first := size first_set in
      let num_all := size common in
      let pct := if decide (num_first = 0%nat) then 0%Q
                 else (Q_of_nat num_all / Q_of_nat num_first * 100)%Q in
      Return (mkCoDraft players num_first num_all pct common)
  end.

(** ** The page ([main.py]) *)

(** Python orders strings by code point, which is the order of their
    UTF-8 bytes. *)
Definition string_le (a b : string) : Prop := String.leb a b = true.

#[global] Instance string_le_dec : RelDecision string_le.
Proof. intros a b. unfold string_le. apply _. Defined.

#[global] Instance string_le_total : Total string_le.
Proof. intros a b. apply String.leb_total. Qed.

(** [Series.unique()]: the distinct values, by first appearance. *)
Fixpoint unique (s : list string) : list string :=
  match s with
  | [] => []
  | x :: l => x :: filter (λ y, y ≠ x) (unique l)
  end.

(** [sorted(df["PLAYERNAME"].unique())]. *)
Definition player_list (df : list Row) : list string :=
  merge_sort string_le (unique ((λ r : Row, PLAYERNAME r) <$> df)).

(** The roster lookup of the co-draft section. *)
Definition team_players (df : list Row) (draft_num slot_no : Z) : list string :=
  (λ r : Row, PLAYERNAME r)
    <$> filter (λ r : Row, SNAKEDRAFTNUM r = draft_num ∧ draft_slot r = slot_no) df.

Record RosterRecord : Type := mkRosterRecord {
  roster_SNAKEDRAFTNUM : Z;
  roster_draft_slot : Z;
  team_roster : string;
}.

(** The loop over [stats["common_pairs"]]; a set is iterated in an order of
    its own, here the one of [elements]. *)
Definition roster_records (df : list Row) (common_pairs : gset (Z * Z))
    : list RosterRecord :=
  (λ k : Z * Z,
     mkRosterRecord k.1 k.2 (String.concat ", " (team_players df k.1 k.2)))
    <$> elements common_pairs.

(** What the co-draft section puts on the page, up to the rendering of
    the figures: the sidebar error, or the statistics and, when some team
    has all the players, the roster table. *)
Inductive CoDraftView : Type :=
  | SidebarError (msg : string)
  | CoDraftResults (stats : CoDraft) (roster_df : option (list RosterRecord)).

(** The body of [if st.sidebar.button("Compute Co-Draft Stats")] in
    [main]. *)
Definition co_draft_section (df : list Row) (selected_players : list string)
    : outcome CoDraftView :=
  match selected_players with
  | [] => Return (SidebarError "Select at least one player.")
  | _ :: _ =>
      stats ← co_draft_multiple df selected_players;
      Return (CoDraftResults stats
                (if decide (common_pairs stats = ∅) then None
                 else Some (roster_records df (common_pairs stats))))
  end.

(** * What the specification states

    The notions the properties below are stated with.  They follow the
    wording of the specification, not the code. *)

(** ** The draft model *)

(** The derived columns of a pick record, as the data model states them:
    the position in the round is what the pick number exceeds the earlier
    rounds by, and the slot follows the round's parity; and, for a pick
    number below [2^53] in absolute value, the round is the ceiling of the
    quotient (the only integer [r] with
    [(r-1) * team_count < n <= r * team_count]) and counts from one. *)
Definition derived_columns_ok (r : Row) : Prop :=
  let n := OVERALLPICKNUM r in
  pick_in_round r = n - (round r - 1) * NUM_TEAMS
  ∧ (Z.odd (round r) = true → draft_slot r = pick_in_round r)
  ∧ (Z.even (round r) = true →
     draft_slot r = NUM_TEAMS - pick_in_round r + 1)
  ∧ (- 2 ^ 53 < n < 2 ^ 53 →
     round r = Qceiling (inject_Z n / inject_Z NUM_TEAMS)
     ∧ (round r - 1) * NUM_TEAMS < n ≤ round r * NUM_TEAMS
     ∧ (1 ≤ n → 1 ≤ round r)).

(** ** The co-draft analyzer *)

(** The team-draft keys at which a player was picked, each listed once. *)
Definition team_key (r : Row) : Z * Z := (SNAKEDRAFTNUM r, draft_slot r).

Definition team_keys (df : list Row) (player : string) : list (Z * Z) :=
  remove_dups (team_key <$> filter (λ r : Row, PLAYERNAME r = player) df).

(** ** The next-pick analyzer *)

(** The analyzer as the specification words it: the later picks of the
    team that made pick [r], and the player of the earliest of them. *)
Definition same_team (r r' : Row) : Prop :=
  SNAKEDRAFTNUM r' = SNAKEDRAFTNUM r ∧ draft_slot r' = draft_slot r.

#[global] Instance same_team_dec r r' : Decision (same_team r r').
Proof. unfold same_team. apply _. Defined.

Definition later_picks (df : list Row) (r : Row) : list Row :=
  filter (λ r' : Row, same_team r r' ∧ OVERALLPICKNUM r < OVERALLPICKNUM r') df.

Definition earliest (r : Row) (rs : list Row) : Row :=
  foldl (λ b c : Row, if decide (OVERALLPICKNUM c < OVERALLPICKNUM b) then c else b)
        r rs.

Definition spec_next_pick (df : list Row) (r : Row) : option string :=
  match later_picks df r with
  | [] => None
  | c :: cs => Some (PLAYERNAME (earliest c cs))
  end.

(** ** Auxiliary notions of the proofs *)

(** The later picks and the next pick, read off a row of [occ]. *)
Definition later_rows (df : list Row) (o : Occ) : list Row :=
  filter (λ r : Row, pick_num o < OVERALLPICKNUM r) (filter (same_key o) df).

Definition occ_next_pick (df : list Row) (o : Occ) : option string :=
  match later_rows df o with
  | [] => None
  | c :: cs => Some (PLAYERNAME (earliest c cs))
  end.

Definition cand_columns (c : Cand) : Z * string := (candidate_pick c, next_player c).
Definition row_columns (r : Row) : Z * string := (OVERALLPICKNUM r, PLAYERNAME r).

(** [occ], the rows of [df] being labelled from [off] on. *)
Definition occurrences_from (off : nat) (df : list Row) (player : string)
    : list Occ :=
  omap (λ ir : nat * Row,
          if decide (PLAYERNAME ir.2 = player)
          then Some (mkOcc ir.1 (SNAKEDRAFTNUM ir.2) (draft_slot ir.2)
                           (OVERALLPICKNUM ir.2))
          else None)
       (imap (λ i r, ((off + i)%nat, r)) df).

(** The sum of the [pct] column. *)
Definition sum_pct (table : list DistRow) : Q := foldr Qplus 0%Q (pct <$> table).

(** * Further notions of the properties *)

(** A row of the returned frame that holds a given draft row. *)
Definition same_pick (d : Draft) (r : Row) : Prop :=
  PLAYERNAME r = raw_PLAYERNAME d
  ∧ SNAKEDRAFTNUM r = raw_SNAKEDRAFTNUM d
  ∧ raw_OVERALLPICKNUM d = Some (OVERALLPICKNUM r).

(** Pick numbers are unique within a draft. *)
Definition unique_picks (df : list Row) : Prop :=
  ∀ r r' : Row, r ∈ df → r' ∈ df →
    SNAKEDRAFTNUM r = SNAKEDRAFTNUM r' → OVERALLPICKNUM r = OVERALLPICKNUM r' →
    r = r'.


#[global] Instance count_ge_total : Total count_ge.
Proof. intros a b. unfold count_ge. lia. Qed.

(** The two float64 operations of [np_ceil_div] as the Standard Library
    specifies binary64, to compare [float64] with. *)
Definition spec_float_value (f : SpecFloat.spec_float) : Q :=
  match f with
  | SpecFloat.S754_finite s m e =>
      ((if s then -1 else 1) * inject_Z (Zpos m) * pow2 e)%Q
  | _ => 0%Q
  end.

Definition spec_float_of_int (n : Z) : SpecFloat.spec_float :=
  SpecFloat.binary_normalize 53 1024 n 0 false.

Definition spec_float_div (x y : SpecFloat.spec_float) : SpecFloat.spec_float :=
  SpecFloat.SFdiv 53 1024 x y.

(** * Sample frames *)

Definition drafts_two_rounds : list Draft :=
  [mkDraft "A" 1 (Some 1); mkDraft "B" 1 (Some 12); mkDraft "C" 1 (Some 13);
   mkDraft "D" 1 (Some 24); mkDraft "A" 2 (Some 25)].

Definition infos_two_rounds : list PlayerInfo :=
  [mkPlayerInfo "A" "KC" "QB" 7; mkPlayerInfo "C" "SF" "RB" 9].

(** An enriched row without metadata. *)
Definition row (name : string) (draft_id pick slot_no : Z) : Row :=
  mkRow (mkPick name draft_id pick None
           (np_ceil_div pick)
           (pick - (np_ceil_div pick - 1) * NUM_TEAMS))
        slot_no.

(** Two drafts: team 5 of draft 1 holds A, C and B, and team 3 of draft 2
    holds Z and, last, A. *)
Definition df_sample : list Row :=
  [row "A" 1 5 5; row "C" 1 44 5; row "B" 1 20 5; row "X" 1 6 6;
   row "A" 2 27 3; row "Z" 2 3 3].

(** Three drafts in which A is followed by B, by C and by B. *)
Definition df_two_teams : list Row :=
  [row "A" 1 5 5; row "B" 1 20 5; row "A" 2 4 4; row "C" 2 21 4;
   row "A" 3 7 7; row "B" 3 18 7; row "D" 3 31 7].

(** * Properties *)

(** ** Float64 arithmetic *)

Section binary64.
Local Open Scope Q_scope.

Lemma pow2_pos e : 0 < pow2 e.
Proof. apply Qpower_0_lt. reflexivity. Qed.

Lemma pow2_add a b : pow2 (a + b) == pow2 a * pow2 b.
Proof. apply Qpower_plus. discriminate. Qed.

Lemma pow2_le a b : (a <= b)%Z -> pow2 a <= pow2 b.
Proof. intros H. apply Qpower_le_compat_l; [exact H | discriminate]. Qed.

Lemma pow2_lt a b : (a < b)%Z -> pow2 a < pow2 b.
Proof. intros H. apply Qpower_lt_compat_l; [exact H | reflexivity]. Qed.

Lemma pow2_lt_inv a b : pow2 a < pow2 b -> (a < b)%Z.
Proof. intros H. apply (Qpower_lt_compat_l_inv 2); [exact H | reflexivity]. Qed.

Lemma pow2_Z k : (0 <= k)%Z -> pow2 k == inject_Z (2 ^ k).
Proof. intros H. unfold pow2. rewrite (Zpower_Qpower 2 k H). reflexivity. Qed.

Lemma pow2_cancel a : pow2 a * pow2 (- a) == 1.
Proof. rewrite <- pow2_add. rewrite Z.add_opp_diag_r. reflexivity. Qed.

Lemma pow2_mul_lt x a b : x * pow2 a < pow2 (b + a) -> x < pow2 b.
Proof.
  intros H. rewrite pow2_add in H.
  apply (Qmult_lt_r _ _ (pow2 a)); [apply pow2_pos | exact H].
Qed.

Lemma pow2_mul_le x a b : pow2 (b + a) <= x * pow2 a -> pow2 b <= x.
Proof.
  intros H. rewrite pow2_add in H.
  apply (Qmult_le_r _ _ (pow2 a)); [apply pow2_pos | exact H].
Qed.

Lemma Qmake_mult_den (a : Z) (b : positive) : (a # b) * inject_Z (Zpos b) == inject_Z a.
Proof. rewrite Qmake_Qdiv. field. discriminate. Qed.

Lemma binade_spec x : 0 < x -> pow2 (binade x) <= x /\ x < pow2 (binade x + 1).
Proof.
  intros Hx. destruct x as [a b].
  assert (0 < a)%Z as Ha by (unfold Qlt in Hx; simpl in Hx; lia).
  unfold binade. cbn [Qnum Qden].
  set (la := Z.log2 a). set (lb := Z.log2 (Zpos b)).
  destruct (Z.log2_spec a Ha) as [Hla1 Hla2]. fold la in Hla1, Hla2.
  destruct (Z.log2_spec (Zpos b) ltac:(lia)) as [Hlb1 Hlb2]. fold lb in Hlb1, Hlb2.
  assert (0 <= la)%Z as Hla0 by apply Z.log2_nonneg.
  assert (0 <= lb)%Z as Hlb0 by apply Z.log2_nonneg.
  pose proof (Qmake_mult_den a b) as Hab.
  assert (0 < a # b) as Hpos by exact Hx.
  (* upper bound *)
  assert (a # b < pow2 (la - lb + 1)) as Hup.
  { apply (pow2_mul_lt _ lb).
    replace (la - lb + 1 + lb)%Z with (Z.succ la) by lia.
    rewrite !pow2_Z by lia.
    apply Qle_lt_trans with ((a # b) * inject_Z (Zpos b)).
    - apply Qmult_le_l; [exact Hpos|]. rewrite <- Zle_Qle. exact Hlb1.
    - rewrite Hab. rewrite <- Zlt_Qlt. exact Hla2. }
  (* lower bound *)
  assert (pow2 (la - lb - 1) <= a # b) as Hlow.
  { apply (pow2_mul_le _ (Z.succ lb)).
    replace (la - lb - 1 + Z.succ lb)%Z with la by lia.
    rewrite !pow2_Z by lia.
    apply Qle_trans with ((a # b) * inject_Z (Zpos b)).
    - rewrite Hab. rewrite <- Zle_Qle. exact Hla1.
    - apply Qmult_le_l; [exact Hpos|]. rewrite <- Zle_Qle. lia. }
  destruct (Qle_bool (pow2 (la - lb)) (a # b)) eqn:Hb.
  - apply Qle_bool_iff in Hb. split; [exact Hb | exact Hup].
  - assert (~ pow2 (la - lb) <= a # b) as Hn
      by (intros H; apply Qle_bool_iff in H; congruence).
    apply Qnot_le_lt in Hn. split; [exact Hlow|].
    replace (la - lb - 1 + 1)%Z with (la - lb)%Z by lia. exact Hn.
Qed.

Lemma binade_unique x e : pow2 e <= x -> x < pow2 (e + 1) -> binade x = e.
Proof.
  intros H1 H2.
  assert (0 < x) as Hx by (pose proof (pow2_pos e); lra).
  destruct (binade_spec x Hx) as [H3 H4].
  assert (pow2 e < pow2 (binade x + 1)) as Ha by lra.
  assert (pow2 (binade x) < pow2 (e + 1)) as Hb by lra.
  apply pow2_lt_inv in Ha. apply pow2_lt_inv in Hb. lia.
Qed.

Lemma binade_mono x y : 0 < x -> x <= y -> (binade x <= binade y)%Z.
Proof.
  intros Hx Hxy.
  destruct (binade_spec x Hx) as [H1 _].
  destruct (binade_spec y ltac:(lra)) as [_ H2].
  assert (pow2 (binade x) < pow2 (binade y + 1)) as H by lra.
  apply pow2_lt_inv in H. lia.
Qed.

Lemma rhe_cases t :
  let f := Qfloor t in
  (round_half_even t = f /\ t - inject_Z f <= 1 # 2
   /\ (t - inject_Z f == 1 # 2 -> Z.even f = true))
  \/ (round_half_even t = (f + 1)%Z /\ 1 # 2 <= t - inject_Z f
      /\ (t - inject_Z f == 1 # 2 -> Z.even f = false)).
Proof.
  intros f. unfold round_half_even. fold f.
  destruct (Qcompare_spec (t - inject_Z f) (1 # 2)) as [He|Hl|Hg].
  - destruct (Z.even f) eqn:Hev.
    + left. split; [reflexivity|]. split; [lra | reflexivity].
    + right. split; [reflexivity|]. split; [lra | reflexivity].
  - left. split; [reflexivity|]. split; [lra|]. intros H. lra.
  - right. split; [reflexivity|]. split; [lra|]. intros H. lra.
Qed.

Lemma Qfloor_bounds t : inject_Z (Qfloor t) <= t /\ t < inject_Z (Qfloor t) + 1.
Proof.
  split; [apply Qfloor_le|].
  pose proof (Qlt_floor t) as H. rewrite inject_Z_plus in H. exact H.
Qed.

Lemma rhe_error t :
  t - (1 # 2) <= inject_Z (round_half_even t)
  /\ inject_Z (round_half_even t) <= t + (1 # 2).
Proof.
  destruct (Qfloor_bounds t) as [H1 H2].
  destruct (rhe_cases t) as [(-> & H & _)|(-> & H & _)].
  - split; lra.
  - rewrite inject_Z_plus. change (inject_Z 1) with 1. split; lra.
Qed.

Lemma rhe_Z t k : t == inject_Z k -> round_half_even t = k.
Proof.
  intros Ht.
  assert (Qfloor t = k) as Hf.
  { apply Z.le_antisymm.
    - rewrite <- (Qfloor_Z k). apply Qfloor_resp_le. lra.
    - rewrite <- (Qfloor_Z k). apply Qfloor_resp_le. lra. }
  destruct (rhe_cases t) as [(-> & _)|(_ & H & _)]; [exact Hf|].
  rewrite Hf in H. lra.
Qed.

Lemma rhe_mono t t' : t <= t' -> (round_half_even t <= round_half_even t')%Z.
Proof.
  intros Hle.
  pose proof (Qfloor_resp_le _ _ Hle) as Hf.
  destruct (Qfloor_bounds t) as [H1 H2].
  destruct (Qfloor_bounds t') as [H1' H2'].
  destruct (rhe_cases t) as [(-> & Ha & Hb)|(-> & Ha & Hb)];
    destruct (rhe_cases t') as [(-> & Ha' & Hb')|(-> & Ha' & Hb')]; try lia.
  destruct (Z.eq_dec (Qfloor t) (Qfloor t')) as [Heq|Hne]; [|lia].
  exfalso. rewrite Heq in *.
  assert (t - inject_Z (Qfloor t') == 1 # 2) as E1 by lra.
  assert (t' - inject_Z (Qfloor t') == 1 # 2) as E2 by lra.
  specialize (Hb E1). specialize (Hb' E2). congruence.
Qed.

Lemma scaled_bounds x :
  0 < x ->
  pow2 52 <= x * pow2 (52 - binade x) /\ x * pow2 (52 - binade x) < pow2 53.
Proof.
  intros Hx. destruct (binade_spec x Hx) as [H1 H2].
  pose proof (pow2_pos (52 - binade x)) as Hp.
  split.
  - setoid_replace (pow2 52) with (pow2 (binade x) * pow2 (52 - binade x))
      using relation Qeq.
    + apply Qmult_le_compat_r; [exact H1 | lra].
    + rewrite <- pow2_add. replace (binade x + (52 - binade x))%Z with 52%Z by lia.
      reflexivity.
  - setoid_replace (pow2 53) with (pow2 (binade x + 1) * pow2 (52 - binade x))
      using relation Qeq.
    + apply Qmult_lt_compat_r; [exact Hp | exact H2].
    + rewrite <- pow2_add.
      replace (binade x + 1 + (52 - binade x))%Z with 53%Z by lia. reflexivity.
Qed.

Lemma mantissa_bounds x :
  0 < x ->
  pow2 52 <= inject_Z (round_half_even (x * pow2 (52 - binade x)))
  /\ inject_Z (round_half_even (x * pow2 (52 - binade x))) <= pow2 53.
Proof.
  intros Hx. destruct (scaled_bounds x Hx) as [H1 H2].
  set (t := x * pow2 (52 - binade x)) in *.
  rewrite (pow2_Z 52) in * by lia. rewrite (pow2_Z 53) in * by lia.
  rewrite <- !Zle_Qle.
  assert (2 ^ 52 <= Qfloor t)%Z as Hf1.
  { rewrite <- (Qfloor_Z (2 ^ 52)). apply Qfloor_resp_le. exact H1. }
  assert (Qfloor t < 2 ^ 53)%Z as Hf2.
  { rewrite Zlt_Qlt. destruct (Qfloor_bounds t). lra. }
  destruct (rhe_cases t) as [(-> & _)|(-> & _)]; lia.
Qed.

Lemma round53_bounds x :
  0 < x -> pow2 (binade x) <= round53 x /\ round53 x <= pow2 (binade x + 1).
Proof.
  intros Hx. destruct (mantissa_bounds x Hx) as [H1 H2]. unfold round53.
  pose proof (pow2_pos (binade x - 52)) as Hp.
  split.
  - setoid_replace (pow2 (binade x)) with (pow2 52 * pow2 (binade x - 52))
      using relation Qeq.
    + apply Qmult_le_compat_r; [exact H1 | lra].
    + rewrite <- pow2_add. replace (52 + (binade x - 52))%Z with (binade x) by lia.
      reflexivity.
  - setoid_replace (pow2 (binade x + 1)) with (pow2 53 * pow2 (binade x - 52))
      using relation Qeq.
    + apply Qmult_le_compat_r; [exact H2 | lra].
    + rewrite <- pow2_add.
      replace (53 + (binade x - 52))%Z with (binade x + 1)%Z by lia. reflexivity.
Qed.

Lemma round53_pos x : 0 < x -> 0 < round53 x.
Proof.
  intros Hx. destruct (round53_bounds x Hx) as [H _].
  pose proof (pow2_pos (binade x)). lra.
Qed.

Lemma round53_mono x y : 0 < x -> x <= y -> round53 x <= round53 y.
Proof.
  intros Hx Hxy. assert (0 < y) as Hy by lra.
  pose proof (binade_mono x y Hx Hxy) as He.
  destruct (Z.eq_dec (binade x) (binade y)) as [Heq|Hne].
  - unfold round53. rewrite Heq.
    apply Qmult_le_compat_r; [|pose proof (pow2_pos (binade y - 52)); lra].
    rewrite <- Zle_Qle. apply rhe_mono.
    apply Qmult_le_compat_r; [exact Hxy|].
    pose proof (pow2_pos (52 - binade y)); lra.
  - destruct (round53_bounds x Hx) as [_ H1].
    destruct (round53_bounds y Hy) as [H2 _].
    pose proof (pow2_le (binade x + 1) (binade y) ltac:(lia)). lra.
Qed.

Lemma scaled_back x e : x * pow2 (52 - e) * pow2 (e - 52) == x.
Proof.
  rewrite <- Qmult_assoc, <- pow2_add.
  replace (52 - e + (e - 52))%Z with 0%Z by lia.
  change (pow2 0) with 1. ring.
Qed.

Lemma half_ulp e : (1 # 2) * pow2 (e - 52) == pow2 (e - 53).
Proof.
  replace (e - 52)%Z with (e - 53 + 1)%Z by lia. rewrite pow2_add.
  change (pow2 1) with 2. ring.
Qed.

Lemma round53_error x :
  0 < x ->
  x - pow2 (binade x - 53) <= round53 x /\ round53 x <= x + pow2 (binade x - 53).
Proof.
  intros Hx. unfold round53.
  set (t := x * pow2 (52 - binade x)).
  destruct (rhe_error t) as [H1 H2].
  pose proof (pow2_pos (binade x - 52)) as Hp.
  pose proof (scaled_back x (binade x)) as Hback. fold t in Hback.
  pose proof (half_ulp (binade x)) as Hhalf.
  split.
  - apply Qle_trans with ((t - (1 # 2)) * pow2 (binade x - 52)).
    + setoid_replace ((t - (1 # 2)) * pow2 (binade x - 52))
        with (t * pow2 (binade x - 52) - (1 # 2) * pow2 (binade x - 52))
        using relation Qeq by ring.
      rewrite Hback, Hhalf. lra.
    + apply Qmult_le_compat_r; [exact H1 | lra].
  - apply Qle_trans with ((t + (1 # 2)) * pow2 (binade x - 52)).
    + apply Qmult_le_compat_r; [exact H2 | lra].
    + setoid_replace ((t + (1 # 2)) * pow2 (binade x - 52))
        with (t * pow2 (binade x - 52) + (1 # 2) * pow2 (binade x - 52))
        using relation Qeq by ring.
      rewrite Hback, Hhalf. lra.
Qed.

Lemma round53_exact x k :
  0 < x -> x * pow2 (52 - binade x) == inject_Z k -> round53 x == x.
Proof.
  intros Hx Hk. unfold round53. rewrite (rhe_Z _ k Hk), <- Hk.
  apply scaled_back.
Qed.

Lemma float64_mono x y : x <= y -> float64 x <= float64 y.
Proof.
  intros Hxy. unfold float64.
  destruct (Qcompare_spec x 0) as [Hx|Hx|Hx];
    destruct (Qcompare_spec y 0) as [Hy|Hy|Hy]; try lra.
  - pose proof (round53_pos y Hy). lra.
  - pose proof (round53_pos (- x) ltac:(lra)). lra.
  - assert (round53 (- y) <= round53 (- x)) by (apply round53_mono; lra). lra.
  - pose proof (round53_pos (- x) ltac:(lra)). pose proof (round53_pos y Hy). lra.
  - apply round53_mono; lra.
Qed.

Lemma float64_proper x y : x == y -> float64 x == float64 y.
Proof.
  intros Hxy. apply Qle_antisym; apply float64_mono; lra.
Qed.

Lemma round53_Z (n : Z) :
  (0 < n < 2 ^ 53)%Z -> round53 (inject_Z n) == inject_Z n.
Proof.
  intros [Hn0 Hn].
  assert (0 < inject_Z n) as Hx by (change 0 with (inject_Z 0); rewrite <- Zlt_Qlt; lia).
  destruct (binade_spec _ Hx) as [H1 _].
  assert (binade (inject_Z n) < 53)%Z as He.
  { apply pow2_lt_inv. rewrite (pow2_Z 53) by lia.
    apply Qle_lt_trans with (inject_Z n); [exact H1|]. rewrite <- Zlt_Qlt. exact Hn. }
  apply (round53_exact _ (n * 2 ^ (52 - binade (inject_Z n)))); [exact Hx|].
  rewrite inject_Z_mult, pow2_Z by lia. reflexivity.
Qed.

Lemma float64_Z (n : Z) :
  (- 2 ^ 53 < n < 2 ^ 53)%Z -> float64 (inject_Z n) == inject_Z n.
Proof.
  intros Hn. unfold float64.
  destruct (Qcompare_spec (inject_Z n) 0) as [H|H|H].
  - lra.
  - change 0 with (inject_Z 0) in H. rewrite <- Zlt_Qlt in H.
    rewrite <- inject_Z_opp, round53_Z by lia. rewrite inject_Z_opp. ring.
  - change 0 with (inject_Z 0) in H. rewrite <- Zlt_Qlt in H.
    apply round53_Z. lia.
Qed.

Lemma round53_error_small x :
  0 < x -> x < pow2 50 ->
  x - (1 # 16) <= round53 x /\ round53 x <= x + (1 # 16).
Proof.
  intros Hx Hsmall. destruct (round53_error x Hx) as [H1 H2].
  destruct (binade_spec x Hx) as [Hb _].
  assert (binade x < 50)%Z as He by (apply pow2_lt_inv; lra).
  pose proof (pow2_le (binade x - 53) (-4) ltac:(lia)) as Hp.
  change (pow2 (-4)) with (1 # 16) in Hp. lra.
Qed.

Lemma float64_error_small x :
  - pow2 50 < x -> x < pow2 50 ->
  x - (1 # 16) <= float64 x /\ float64 x <= x + (1 # 16).
Proof.
  intros Hlo Hhi. unfold float64.
  destruct (Qcompare_spec x 0) as [H|H|H].
  - lra.
  - destruct (round53_error_small (- x)); lra.
  - destruct (round53_error_small x); lra.
Qed.

Lemma Qceiling_unique y k :
  inject_Z (k - 1) < y -> y <= inject_Z k -> Qceiling y = k.
Proof.
  intros H1 H2.
  pose proof (Qceiling_lt y) as H3. pose proof (Qle_ceiling y) as H4.
  assert (inject_Z (k - 1) < inject_Z (Qceiling y)) as Ha by lra.
  assert (inject_Z (Qceiling y - 1) < inject_Z k) as Hb by lra.
  rewrite <- Zlt_Qlt in Ha, Hb. lia.
Qed.

End binary64.

(** The rounds [np.ceil] gives never decrease with the pick number. *)
Lemma np_ceil_div_mono (n n' : Z) : n ≤ n' → np_ceil_div n ≤ np_ceil_div n'.
Proof.
  intros H. unfold np_ceil_div. apply Qceiling_resp_le, float64_mono.
  apply Qmult_le_compat_r; [|unfold NUM_TEAMS; discriminate].
  apply float64_mono. rewrite <- Zle_Qle. exact H.
Qed.

(** Below [2^53] the float quotient is close enough to the exact one for
    its ceiling to be the exact ceiling. *)
Lemma np_ceil_div_exact (n : Z) :
  - 2 ^ 53 < n < 2 ^ 53 → np_ceil_div n = - ((- n) / NUM_TEAMS).
Proof.
  intros Hn. unfold np_ceil_div, NUM_TEAMS.
  set (k := - ((- n) / 12)).
  assert ((k - 1) * 12 < n ≤ k * 12) as Hk.
  { unfold k. pose proof (Z.div_mod (- n) 12 ltac:(lia)).
    pose proof (Z.mod_pos_bound (- n) 12 ltac:(lia)). lia. }
  pose proof (float64_Z n Hn) as Hx.
  set (q := (float64 (inject_Z n) / inject_Z 12)%Q).
  assert (q == inject_Z n / 12)%Q as Hq by (unfold q; rewrite Hx; reflexivity).
  assert (inject_Z (k - 1) + (1 # 12) <= q)%Q as Hlow.
  { rewrite Hq. apply Qle_shift_div_l; [reflexivity|].
    assert (inject_Z ((k - 1) * 12 + 1) <= inject_Z n)%Q as H
      by (rewrite <- Zle_Qle; lia).
    rewrite inject_Z_plus, inject_Z_mult in H.
    change (inject_Z 12) with 12%Q in H. change (inject_Z 1) with 1%Q in H. lra. }
  assert (q <= inject_Z k)%Q as Hup.
  { rewrite Hq. apply Qle_shift_div_r; [reflexivity|].
    assert (inject_Z n <= inject_Z (k * 12))%Q as H by (rewrite <- Zle_Qle; lia).
    rewrite inject_Z_mult in H. change (inject_Z 12) with 12%Q in H. lra. }
  assert (- 2 ^ 53 < k < 2 ^ 53) as Hkr by lia.
  apply Qceiling_unique.
  - assert (- pow2 50 < q)%Q as Hq1.
    { rewrite (pow2_Z 50) by lia.
      assert (inject_Z (- 2 ^ 50) < inject_Z (k - 1))%Q as H
        by (rewrite <- Zlt_Qlt; lia).
      rewrite inject_Z_opp in H. lra. }
    assert (q < pow2 50)%Q as Hq2.
    { rewrite (pow2_Z 50) by lia.
      assert (inject_Z k < inject_Z (2 ^ 50))%Q as H by (rewrite <- Zlt_Qlt; lia).
      lra. }
    destruct (float64_error_small q Hq1 Hq2) as [He _]. lra.
  - rewrite <- (float64_Z k Hkr). apply float64_mono. exact Hup.
Qed.

(** [float64] against the Standard Library's binary64, on pick numbers
    small and large: the conversion of the pick number, and the quotient
    by the team count. *)
Example float64_agrees_with_spec_float :
  Forall (λ n : Z,
            (float64 (inject_Z n) == spec_float_value (spec_float_of_int n)
             ∧ float64 (float64 (inject_Z n) / inject_Z NUM_TEAMS)
               == spec_float_value
                    (spec_float_div (spec_float_of_int n)
                                    (spec_float_of_int NUM_TEAMS)))%Q)
         [0; 1; 5; 12; 13; 24; 25; 1000003; -7; -12; 2 ^ 53 - 1; 2 ^ 53 + 1;
          2 ^ 53 + 3; 2 ^ 53 + 5; 9007199254740997; 2 ^ 54 + 2; 2 ^ 54 + 6;
          12 * (2 ^ 53 + 1); 2 ^ 62 + 12345; - 2 ^ 60 - 7; 2 ^ 63 - 1; - 2 ^ 63].
Proof. repeat constructor; vm_compute; reflexivity. Qed.

(** ** The draft model *)

Section draft_model.

(** The exact ceiling of the quotient, in integer terms. *)
Lemma Qceiling_div (n : Z) :
  Qceiling (inject_Z n / inject_Z NUM_TEAMS) = - ((- n) / NUM_TEAMS).
Proof.
  unfold NUM_TEAMS, Qceiling, Qfloor. simpl.
  rewrite Z.mul_1_r. reflexivity.
Qed.

Lemma np_ceil_div_bounds (n : Z) :
  - 2 ^ 53 < n < 2 ^ 53 →
  (np_ceil_div n - 1) * NUM_TEAMS < n ≤ np_ceil_div n * NUM_TEAMS.
Proof.
  intros Hn. rewrite (np_ceil_div_exact n Hn). unfold NUM_TEAMS.
  pose proof (Z.div_mod (- n) 12 ltac:(lia)).
  pose proof (Z.mod_pos_bound (- n) 12 ltac:(lia)).
  lia.
Qed.

Lemma mapM_Return {A B} (f : A → outcome B) (l : list A) (k : list B) :
  mapM f l = Return k → Forall2 (λ x y, f x = Return y) l k.
Proof.
  revert k. induction l as [|x l IH]; intros k; simpl.
  - intros [= <-]. constructor.
  - destruct (f x) as [y|e] eqn:Hx; simpl; [|discriminate].
    destruct (mapM f l) as [k'|e] eqn:Hl; simpl; [|discriminate].
    intros [= <-]. constructor; auto.
Qed.

Lemma mapM_Raise {A B} (f : A → outcome B) (l : list A) (e : exn) :
  mapM f l = Raise e → ∃ x, x ∈ l ∧ f x = Raise e.
Proof.
  induction l as [|x l IH]; simpl; [discriminate|].
  destruct (f x) as [y|e'] eqn:Hx; simpl.
  - destruct (mapM f l) as [k'|e''] eqn:Hl; simpl; [discriminate|].
    intros [= ->]. destruct IH as (x' & ? & ?); [done|].
    exists x'. split; [by right | done].
  - intros [= ->]. exists x. split; [by left | done].
Qed.

Lemma elem_of_merge_player_info drafts infos m :
  m ∈ merge_player_info drafts infos → m.1 ∈ drafts.
Proof.
  unfold merge_player_info. intros (d & Hm & Hd)%list_elem_of_bind.
  destruct (filter _ infos) as [|i matches].
  - apply list_elem_of_singleton in Hm as ->. done.
  - apply list_elem_of_fmap in Hm as (i' & -> & _). done.
Qed.

Lemma merge_player_info_covers drafts infos d :
  d ∈ drafts → ∃ i, (d, i) ∈ merge_player_info drafts infos.
Proof.
  intros Hd. unfold merge_player_info.
  destruct (filter (λ i, Name i = raw_PLAYERNAME d) infos) as [|i matches] eqn:Hf.
  - exists None. apply list_elem_of_bind. exists d. rewrite Hf.
    split; [by left | done].
  - exists (Some i). apply list_elem_of_bind. exists d. rewrite Hf.
    split; [by left | done].
Qed.


(** What [slot] returns, by the parity of the round. *)
Lemma slot_odd (row : Pick) :
  Z.odd (round row) = true → slot row = Return (pick_in_round row).
Proof.
  intros Ho. unfold slot. rewrite Zmod_odd, Ho. by rewrite decide_True.
Qed.

Lemma slot_even (row : Pick) :
  Z.even (round row) = true →
  slot row = Return (NUM_TEAMS - pick_in_round row + 1).
Proof.
  intros He. unfold slot. rewrite Zmod_even, He. by rewrite decide_False.
Qed.

Lemma derive_Return m r :
  derive m = Return r →
  raw_OVERALLPICKNUM m.1 = Some (OVERALLPICKNUM r)
  ∧ PLAYERNAME r = raw_PLAYERNAME m.1
  ∧ SNAKEDRAFTNUM r = raw_SNAKEDRAFTNUM m.1
  ∧ round r = np_ceil_div (OVERALLPICKNUM r)
  ∧ pick_in_round r = OVERALLPICKNUM r - (round r - 1) * NUM_TEAMS
  ∧ slot r = Return (draft_slot r).
Proof.
  destruct m as [d i]. unfold derive. simpl.
  destruct (raw_OVERALLPICKNUM d) as [n|]; simpl; [|discriminate].
  match goal with |- context [slot ?row] => destruct (slot row) as [s|e] eqn:Hs end;
    simpl; [|discriminate].
  intros [= <-]. simpl. by rewrite Hs.
Qed.

Lemma derive_Raise m e :
  derive m = Raise e →
  raw_OVERALLPICKNUM m.1 = None ∧ ∃ msg, e = ValueError msg.
Proof.
  destruct m as [d i]. unfold derive. simpl.
  destruct (raw_OVERALLPICKNUM d) as [n|]; simpl.
  - unfold slot. case_decide; simpl; discriminate.
  - intros [= <-]. eauto.
Qed.


Lemma derive_derived_columns_ok m r :
  derive m = Return r → derived_columns_ok r.
Proof.
  intros (_ & _ & _ & Hround & Hpir & Hslot)%derive_Return.
  unfold derived_columns_ok. simpl. split; [done|]. split; [|split].
  - intros Ho. rewrite (slot_odd _ Ho) in Hslot. congruence.
  - intros He. rewrite (slot_even _ He) in Hslot. congruence.
  - intros Hn. pose proof (np_ceil_div_bounds _ Hn) as Hb.
    rewrite <- Hround in Hb. split; [|split].
    + rewrite Qceiling_div, Hround. by apply np_ceil_div_exact.
    + done.
    + unfold NUM_TEAMS in *. lia.
Qed.

Lemma derive_same_pick m r : derive m = Return r → same_pick m.1 r.
Proof. intros (Hn & Hname & Hdraft & _)%derive_Return. done. Qed.

End draft_model.

Lemma Forall2_elem_of_l {A B} (P : A → B → Prop) l k x :
  Forall2 P l k → x ∈ l → ∃ y, y ∈ k ∧ P x y.
Proof.
  induction 1 as [|a b l k Hab _ IH]; [by intros ?%elem_of_nil|].
  intros [->|Hx]%elem_of_cons.
  - exists b. split; [by left | done].
  - destruct (IH Hx) as (y & ? & ?). exists y. split; [by right | done].
Qed.

Lemma Forall2_elem_of_r {A B} (P : A → B → Prop) l k y :
  Forall2 P l k → y ∈ k → ∃ x, x ∈ l ∧ P x y.
Proof.
  induction 1 as [|a b l k Hab _ IH]; [by intros ?%elem_of_nil|].
  intros [->|Hy]%elem_of_cons.
  - exists a. split; [by left | done].
  - destruct (IH Hy) as (x & ? & ?). exists x. split; [by right | done].
Qed.


Lemma get_data_covers (drafts : list Draft) (infos : list PlayerInfo)
    (rows : list Row) :
  get_data drafts infos = Return rows →
  (∀ d, d ∈ drafts → ∃ r : Row, r ∈ rows ∧ same_pick d r)
  ∧ (∀ r : Row, r ∈ rows → ∃ d, d ∈ drafts ∧ same_pick d r).
Proof.
  intros Hget%mapM_Return. split.
  - intros d Hd. destruct (merge_player_info_covers drafts infos d Hd) as [i Hi].
    destruct (Forall2_elem_of_l _ _ _ _ Hget Hi) as (r & Hr & Hm).
    exists r. split; [done|]. by apply (derive_same_pick (d, i)).
  - intros r Hr. destruct (Forall2_elem_of_r _ _ _ _ Hget Hr) as (m & Hm & Hd).
    exists m.1. split; [by apply (elem_of_merge_player_info drafts infos)|].
    by apply derive_same_pick.
Qed.




(** C4, as the code has it.  The builder has no integrity check of its
    own: the team count is the positive constant 12; [slot] returns on
    every row, applying its formula to whatever [pick_in_round] it is
    given; and [get_data] fails exactly when a pick number is missing,
    with the [ValueError] of the integer cast, while for present pick
    numbers it returns a frame that holds every pick record, in which
    [pick_in_round] and [draft_slot] both lie in [1, 12] on the rows whose
    pick number is below [2^53] in absolute value. *)
Theorem get_data_integrity (drafts : list Draft) (infos : list PlayerInfo) :
  0 < NUM_TEAMS
  ∧ (∀ row : Pick, ∃ s, slot row = Return s
       ∧ (s = pick_in_round row ∨ s = NUM_TEAMS - pick_in_round row + 1))
  ∧ match get_data drafts infos with
    | Return rows =>
        Forall (λ d, is_Some (raw_OVERALLPICKNUM d)) drafts
        ∧ (∀ d, d ∈ drafts → ∃ r : Row, r ∈ rows ∧ same_pick d r)
        ∧ Forall (λ r : Row,
                    - 2 ^ 53 < OVERALLPICKNUM r < 2 ^ 53 →
                    1 ≤ pick_in_round r ≤ NUM_TEAMS
                    ∧ 1 ≤ draft_slot r ≤ NUM_TEAMS) rows
    | Raise e =>
        (∃ msg, e = ValueError msg)
        ∧ ∃ d, d ∈ drafts ∧ raw_OVERALLPICKNUM d = None
    end.
Proof.
  split; [done|]. split.
  { intros row. unfold slot. case_decide; eauto. }
  destruct (get_data drafts infos) as [rows|e] eqn:Hget.
  - destruct (get_data_covers drafts infos rows Hget) as [Hcover _].
    unfold get_data in Hget. apply mapM_Return in Hget. split; [|split; [done|]].
    + apply Forall_forall. intros d Hd.
      destruct (merge_player_info_covers drafts infos d Hd) as [i Hi].
      destruct (Forall2_elem_of_l _ _ _ _ Hget Hi) as (r & _ & Hr).
      apply derive_Return in Hr as (Hn & _). simpl in Hn. by rewrite Hn.
    + apply Forall_forall. intros r Hr Hn.
      destruct (Forall2_elem_of_r _ _ _ _ Hget Hr) as (m & _ & Hm).
      apply derive_derived_columns_ok in Hm as (Hpir & Hodd & Heven & Hround).
      destruct (Hround Hn) as (_ & Hb & _).
      simpl in *. unfold NUM_TEAMS in *.
      destruct (Z.odd (round r)) eqn:Ho.
      * rewrite Hodd by done. lia.
      * rewrite Heven by (by rewrite <- Z.negb_odd, Ho). lia.
  - unfold get_data in Hget. apply mapM_Raise in Hget as (m & Hm & Hr).
    apply derive_Raise in Hr as (Hn & Hmsg). split; [done|].
    exists m.1. split; [|done]. by eapply elem_of_merge_player_info.
Qed.

(** C4, as the specification has it, fails on [slot]: a pick in an even
    round whose position in the round is 13, outside [1, 12], is not
    reported; [slot] returns 0, which is not a slot either. *)
Lemma slot_out_of_range_returns :
  let row := mkPick "A" 1 25 None 2 13 in
  ¬ (1 ≤ pick_in_round row ≤ NUM_TEAMS)
  ∧ slot row = Return 0
  ∧ ¬ (1 ≤ 0 ≤ NUM_TEAMS)
  ∧ ¬ (∀ row : Pick, ¬ (1 ≤ pick_in_round row ≤ NUM_TEAMS) →
         ∃ e, slot row = Raise e).
Proof.
  simpl. unfold NUM_TEAMS. repeat split; try lia.
  intros H. destruct (H (mkPick "A" 1 25 None 2 13)) as [e He].
  - simpl. lia.
  - vm_compute in He. discriminate.
Qed.

(** ** The co-draft analyzer *)

Section co_draft.
Implicit Types (df : list Row) (k : Z * Z) (X : gset (Z * Z)).

Lemma zip_columns {A B C} (f : A → B) (g : A → C) (l : list A) :
  zip (f <$> l) (g <$> l) = (λ x, (f x, g x)) <$> l.
Proof. induction l as [|x l IH]; simpl; [done | by f_equal]. Qed.

Lemma pair_set_team_keys df player :
  pair_set df player = list_to_set (team_keys df player).
Proof.
  unfold pair_set, team_keys.
  rewrite (zip_columns (λ r : Row, SNAKEDRAFTNUM r) draft_slot).
  apply set_eq. intros k.
  by rewrite !elem_of_list_to_set, elem_of_remove_dups.
Qed.

Lemma elem_of_pair_set df player k :
  k ∈ pair_set df player ↔
  ∃ r : Row, r ∈ df ∧ PLAYERNAME r = player ∧ team_key r = k.
Proof.
  unfold pair_set.
  rewrite (zip_columns (λ r : Row, SNAKEDRAFTNUM r) draft_slot).
  rewrite elem_of_list_to_set, list_elem_of_fmap.
  split.
  - intros (r & -> & [??]%list_elem_of_filter). by exists r.
  - intros (r & ? & ? & <-). exists r. split; [done|].
    by apply list_elem_of_filter.
Qed.

Lemma elem_of_team_keys df player k :
  k ∈ team_keys df player ↔ k ∈ pair_set df player.
Proof. by rewrite pair_set_team_keys, elem_of_list_to_set. Qed.

Lemma size_pair_set df player :
  size (pair_set df player) = length (team_keys df player).
Proof.
  rewrite pair_set_team_keys. apply size_list_to_set, NoDup_remove_dups.
Qed.

Lemma elem_of_foldl_intersection X (rest : list (gset (Z * Z))) k :
  k ∈ foldl (∩) X rest ↔ k ∈ X ∧ ∀ Y, Y ∈ rest → k ∈ Y.
Proof.
  revert X. induction rest as [|Y rest IH]; intros X; simpl.
  - split; [|by intros [? _]]. intros ?. split; [done|].
    by intros ? ?%elem_of_nil.
  - rewrite IH, elem_of_intersection. split.
    + intros [[??] Hrest]. split; [done|].
      intros Z [->|?]%elem_of_cons; auto.
    + intros [? Hall]. split; [split|]; [done| |].
      * apply Hall. by left.
      * intros Z ?. apply Hall. by right.
Qed.

(** The result on a non-empty list, statement by statement. *)
Lemma co_draft_multiple_cons df first others :
  co_draft_multiple df (first :: others) =
  Return
    (let common := foldl (∩) (pair_set df first) (pair_set df <$> others) in
     let num_first := size (pair_set df first) in
     let num_all := size common in
     mkCoDraft (first :: others) num_first num_all
       (if decide (num_first = 0%nat) then 0%Q
        else (Q_of_nat num_all / Q_of_nat num_first * 100)%Q)
       common).
Proof. reflexivity. Qed.

Lemma elem_of_common df first others k :
  k ∈ foldl (∩) (pair_set df first) (pair_set df <$> others) ↔
  ∀ player, player ∈ first :: others → k ∈ pair_set df player.
Proof.
  rewrite elem_of_foldl_intersection. split.
  - intros [Hf Ho] player [->|Hp]%elem_of_cons; [done|].
    apply Ho. apply list_elem_of_fmap. by exists player.
  - intros Hall. split; [apply Hall; by left|].
    intros Y (player & -> & ?)%list_elem_of_fmap. apply Hall. by right.
Qed.

Lemma common_subseteq_first df first others :
  foldl (∩) (pair_set df first) (pair_set df <$> others) ⊆ pair_set df first.
Proof. intros k [? _]%elem_of_foldl_intersection. done. Qed.

(** Percentages, in exact arithmetic. *)
Lemma Q_of_nat_pos n : (0 < n)%nat → (0 < Q_of_nat n)%Q.
Proof.
  intros Hn. unfold Q_of_nat. change 0%Q with (inject_Z 0).
  rewrite <- Zlt_Qlt. lia.
Qed.

Lemma pct_full n : (0 < n)%nat → (Q_of_nat n / Q_of_nat n * 100 == 100)%Q.
Proof.
  intros Hn%Q_of_nat_pos. field. intros Hz. rewrite Hz in Hn.
  by apply Qlt_irrefl in Hn.
Qed.

Lemma pct_bounds a b :
  (a ≤ b)%nat → (0 < b)%nat →
  (0 <= Q_of_nat a / Q_of_nat b * 100 ∧ Q_of_nat a / Q_of_nat b * 100 <= 100)%Q.
Proof.
  intros Hab Hb. pose proof (Q_of_nat_pos b Hb) as Hbq.
  assert (0 <= Q_of_nat a)%Q as Haq.
  { unfold Q_of_nat. change 0%Q with (inject_Z 0). rewrite <- Zle_Qle. lia. }
  assert (Q_of_nat a <= Q_of_nat b)%Q as Habq.
  { unfold Q_of_nat. rewrite <- Zle_Qle. lia. }
  split.
  - apply Qmult_le_0_compat; [|done].
    apply Qle_shift_div_l; [done|]. by rewrite Qmult_0_l.
  - apply Qle_trans with (1 * 100)%Q; [|by rewrite Qmult_1_l; apply Qle_refl].
    apply Qmult_le_compat_r; [|done].
    apply Qle_shift_div_r; [done|]. by rewrite Qmult_1_l.
Qed.

End co_draft.

(** C3.  On a non-empty list whose first player is [first],
    [co_draft_multiple] returns [num_first], the number of distinct
    team-draft keys at which [first] was picked; [common_pairs], the keys
    lying in every player's key set; [num_all], the size of that
    intersection; and [pct_together], [num_all / num_first * 100] when
    [num_first] is positive and 0 when it is zero. *)
Theorem co_draft_multiple_result (df : list Row) (players : list string)
    (first : string) :
  players !! 0%nat = Some first →
  ∃ res, co_draft_multiple df players = Return res
    ∧ num_first res = length (team_keys df first)
    ∧ (∀ k, k ∈ common_pairs res ↔
            ∀ player, player ∈ players → k ∈ team_keys df player)
    ∧ num_all res = size (common_pairs res)
    ∧ num_all res =
        length (filter (λ k, Forall (λ player, k ∈ team_keys df player) players)
                       (team_keys df first))
    ∧ (if decide (num_first res = 0%nat)
       then pct_together res == 0
       else pct_together res ==
              Q_of_nat (num_all res) / Q_of_nat (num_first res) * 100)%Q.
Proof.
  destruct players as [|p others]; [discriminate|]. intros [= ->].
  eexists. split; [apply co_draft_multiple_cons|]. simpl.
  split; [apply size_pair_set|].
  assert (∀ k, k ∈ foldl (∩) (pair_set df first) (pair_set df <$> others) ↔
               ∀ player, player ∈ first :: others → k ∈ team_keys df player)
    as Hcommon.
  { intros k. rewrite elem_of_common.
    by setoid_rewrite elem_of_team_keys. }
  split; [done|]. split; [done|]. split.
  - rewrite <- (size_list_to_set (C := gset (Z * Z)))
      by apply NoDup_filter, NoDup_remove_dups.
    f_equal. apply set_eq. intros k.
    rewrite Hcommon, elem_of_list_to_set, list_elem_of_filter, Forall_forall.
    split.
    + intros Hall. split; [done|]. apply Hall. by left.
    + by intros [? _].
  - case_decide; reflexivity.
Qed.

Lemma co_draft_multiple_result_witness :
  ∃ res, co_draft_multiple df_sample ["A"; "B"] = Return res
    ∧ num_first res = 2%nat ∧ num_all res = 1%nat
    ∧ (pct_together res == 50)%Q.
Proof.
  destruct (co_draft_multiple_result df_sample ["A"; "B"] "A" eq_refl)
    as (res & Hres & Hfirst & _ & _ & Hall & Hpct).
  exists res. split; [done|].
  assert (num_first res = 2%nat) as H2 by (rewrite Hfirst; vm_compute; reflexivity).
  assert (num_all res = 1%nat) as H1 by (rewrite Hall; vm_compute; reflexivity).
  split; [done|]. split; [done|].
  rewrite H2, H1 in Hpct. simpl in Hpct. rewrite Hpct. reflexivity.
Defined.

(** C5.  [co_draft_multiple] raises exactly when the list of players is
    empty, and what it raises is the [ValueError] of its first statement;
    on every non-empty list it returns a result. *)
Theorem co_draft_multiple_raises_iff_empty (df : list Row) (players : list string) :
  (players = [] ↔ ∃ e, co_draft_multiple df players = Raise e)
  ∧ (players ≠ [] ↔ ∃ res, co_draft_multiple df players = Return res)
  ∧ (∀ e, co_draft_multiple df players = Raise e →
          e = ValueError "Please supply at least one player name.").
Proof.
  destruct players as [|p others].
  - simpl. split; [|split].
    + split; [eauto | done].
    + split; [done | by intros [? ?]].
    + by intros e [= <-].
  - rewrite co_draft_multiple_cons. split; [|split].
    + split; [done | by intros [? ?]].
    + split; [eauto | done].
    + by intros e.
Qed.

(** C6, as the code has it.  On a single player, the returned
    [common_pairs] is that player's own key set and [num_all] equals
    [num_first]; [pct_together] is 100 when the player occurs in the
    frame, and 0 when it does not. *)
Theorem co_draft_multiple_single (df : list Row) (player : string) :
  ∃ res, co_draft_multiple df [player] = Return res
    ∧ common_pairs res = pair_set df player
    ∧ num_all res = num_first res
    ∧ (pct_together res ==
       if decide (Exists (λ r : Row, PLAYERNAME r = player) df)
       then 100 else 0)%Q.
Proof.
  eexists. split; [apply co_draft_multiple_cons|]. simpl.
  split; [done|]. split; [done|].
  destruct (decide (size (pair_set df player) = 0%nat)) as [Hz|Hnz].
  - rewrite decide_False; [reflexivity|].
    intros (r & Hr & Hp)%Exists_exists.
    apply size_empty_inv in Hz.
    assert (team_key r ∈ pair_set df player) as Hin
      by (apply elem_of_pair_set; eauto).
    apply Hz in Hin. by apply not_elem_of_empty in Hin.
  - rewrite decide_True.
    + apply pct_full. lia.
    + destruct (size_pos_elem_of (pair_set df player)) as [k Hk]; [lia|].
      apply elem_of_pair_set in Hk as (r & ? & ? & _).
      apply Exists_exists. eauto.
Qed.

(** C6, as the specification has it, fails for a player who is not in the
    frame: [num_first] is 0 and the guarded percentage is 0, not 100. *)
Lemma co_draft_multiple_single_unknown :
  ∃ res, co_draft_multiple df_sample ["Q"] = Return res
    ∧ num_first res = 0%nat
    ∧ pct_together res = 0%Q
    ∧ ¬ (pct_together res == 100)%Q.
Proof.
  eexists. split; [apply co_draft_multiple_cons|].
  vm_compute. repeat split; discriminate.
Qed.

Lemma common_permutation (df : list Row) (l1 l2 : list string) p1 o1 p2 o2 :
  l1 = p1 :: o1 → l2 = p2 :: o2 → l1 ≡ₚ l2 →
  foldl (∩) (pair_set df p1) (pair_set df <$> o1) =
  foldl (∩) (pair_set df p2) (pair_set df <$> o2).
Proof.
  intros -> -> Hperm. apply set_eq. intros k. rewrite !elem_of_common.
  split; intros Hall player Hp; apply Hall.
  - by rewrite Hperm.
  - by rewrite <- Hperm.
Qed.

(** C9.  Reordering a non-empty list of players changes neither
    [common_pairs] nor [num_all]; and the two orders agree on [num_first]
    and [pct_together] as soon as they start with the same player. *)
Theorem co_draft_multiple_permutation (df : list Row) (l1 l2 : list string) :
  l1 ≠ [] → l1 ≡ₚ l2 →
  ∃ r1 r2, co_draft_multiple df l1 = Return r1
    ∧ co_draft_multiple df l2 = Return r2
    ∧ common_pairs r1 = common_pairs r2
    ∧ num_all r1 = num_all r2
    ∧ (head l1 = head l2 →
       num_first r1 = num_first r2 ∧ pct_together r1 = pct_together r2).
Proof.
  intros Hne Hperm.
  destruct l1 as [|p1 o1]; [done|].
  destruct l2 as [|p2 o2]; [by apply Permutation_nil_r in Hperm|].
  do 2 eexists. split; [apply co_draft_multiple_cons|].
  split; [apply co_draft_multiple_cons|]. simpl.
  rewrite (common_permutation df _ _ p1 o1 p2 o2 eq_refl eq_refl Hperm).
  split; [done|]. split; [done|].
  intros [= ->]. done.
Qed.

Lemma co_draft_multiple_permutation_witness :
  ∃ r1 r2, co_draft_multiple df_sample ["A"; "B"; "C"] = Return r1
    ∧ co_draft_multiple df_sample ["A"; "C"; "B"] = Return r2
    ∧ common_pairs r1 = common_pairs r2
    ∧ num_all r1 = num_all r2
    ∧ num_first r1 = num_first r2 ∧ pct_together r1 = pct_together r2.
Proof.
  destruct (co_draft_multiple_permutation df_sample
              ["A"; "B"; "C"] ["A"; "C"; "B"])
    as (r1 & r2 & H1 & H2 & Hc & Ha & Hf).
  - discriminate.
  - apply perm_skip, perm_swap.
  - exists r1, r2. destruct (Hf eq_refl). done.
Defined.

(** With another player first, [num_first] and [pct_together] do change. *)
Example co_draft_multiple_first_matters :
  ∃ r1 r2, co_draft_multiple df_sample ["A"; "B"] = Return r1
    ∧ co_draft_multiple df_sample ["B"; "A"] = Return r2
    ∧ num_first r1 = 2%nat ∧ num_first r2 = 1%nat
    ∧ (pct_together r1 == 50)%Q ∧ (pct_together r2 == 100)%Q.
Proof.
  do 2 eexists. split; [apply co_draft_multiple_cons|].
  split; [apply co_draft_multiple_cons|]. vm_compute. done.
Qed.

(** C10.  On a non-empty list whose first player is [first], the returned
    [common_pairs] is included in the key set of [first], whose size is
    [num_first]; hence [num_all <= num_first] and [pct_together] lies
    between 0 and 100. *)
Theorem co_draft_multiple_bounds (df : list Row) (players : list string)
    (first : string) :
  players !! 0%nat = Some first →
  ∃ res, co_draft_multiple df players = Return res
    ∧ common_pairs res ⊆ pair_set df first
    ∧ num_first res = size (pair_set df first)
    ∧ (num_all res ≤ num_first res)%nat
    ∧ (0 <= pct_together res ∧ pct_together res <= 100)%Q.
Proof.
  destruct players as [|p others]; [discriminate|]. intros [= ->].
  eexists. split; [apply co_draft_multiple_cons|]. simpl.
  pose proof (common_subseteq_first df first others) as Hsub.
  pose proof (subseteq_size _ _ Hsub) as Hsize.
  split; [done|]. split; [done|]. split; [done|].
  case_decide as Hz.
  - split; [apply Qle_refl | done].
  - apply pct_bounds; [done | lia].
Qed.

Lemma co_draft_multiple_bounds_witness :
  ∃ res, co_draft_multiple df_sample ["A"; "B"] = Return res
    ∧ common_pairs res ⊆ pair_set df_sample "A"
    ∧ num_first res = size (pair_set df_sample "A")
    ∧ (num_all res ≤ num_first res)%nat
    ∧ (0 <= pct_together res ∧ pct_together res <= 100)%Q.
Proof. apply (co_draft_multiple_bounds df_sample ["A"; "B"] "A"). reflexivity. Defined.

(** ** The next-pick analyzer *)

Section filtered_frame.
Implicit Types (df : list Row) (o : Occ) (c : Cand) (off : nat).

Lemma later_from_nil off : later_from off [] = [].
Proof. reflexivity. Qed.

Lemma later_from_cons off m (l : list Merged) :
  later_from off (m :: l) =
  match keep_later (off, m) with
  | Some c => c :: later_from (S off) l
  | None => later_from (S off) l
  end.
Proof.
  unfold later_from. rewrite imap_cons. simpl.
  rewrite Nat.add_0_r.
  assert (imap ((λ i m0, ((off + i)%nat, m0)) ∘ S) l
          = imap (λ i m0, ((S off + i)%nat, m0)) l) as ->.
  { apply imap_ext. intros i x _. simpl. f_equal. lia. }
  reflexivity.
Qed.

Lemma later_from_app off (l1 l2 : list Merged) :
  later_from off (l1 ++ l2) =
  later_from off l1 ++ later_from (off + length l1) l2.
Proof.
  revert off. induction l1 as [|m l1 IH]; intros off; simpl.
  - by rewrite Nat.add_0_r.
  - rewrite !later_from_cons, IH.
    replace (S off + length l1)%nat with (off + S (length l1))%nat by lia.
    by destruct (keep_later (off, m)).
Qed.

Lemma elem_of_later_from off (l : list Merged) c :
  c ∈ later_from off l ↔
  ∃ i m, l !! i = Some m ∧ keep_later ((off + i)%nat, m) = Some c.
Proof.
  unfold later_from. rewrite list_elem_of_omap. split.
  - intros ([j m] & Hin & Hk).
    apply elem_of_lookup_imap in Hin as (i & m' & [= -> ->] & Hl).
    by exists i, m'.
  - intros (i & m & Hl & Hk). exists ((off + i)%nat, m). split; [|done].
    apply elem_of_lookup_imap. by exists i, m.
Qed.

Lemma keep_later_label j m c : keep_later (j, m) = Some c → cand_label c = j.
Proof.
  unfold keep_later. simpl. destruct (merged_candidate m) as [[cp np]|]; [|done].
  case_decide; [|done]. by intros [= <-].
Qed.

(** A label names one row of [filtered]. *)
Lemma later_from_label_inj off (l : list Merged) c c' :
  c ∈ later_from off l → c' ∈ later_from off l →
  cand_label c = cand_label c' → c = c'.
Proof.
  intros (i & m & Hl & Hk)%elem_of_later_from
         (i' & m' & Hl' & Hk')%elem_of_later_from Hlabel.
  rewrite (keep_later_label _ _ _ Hk), (keep_later_label _ _ _ Hk') in Hlabel.
  assert (i = i') as <- by lia. congruence.
Qed.

(** The rows that one occurrence contributes to [filtered]. *)
Lemma later_from_matches off o (ms : list Row) :
  let l := later_from off
    ((λ r : Row, mkMerged o (Some (OVERALLPICKNUM r, PLAYERNAME r))) <$> ms) in
  Forall (λ c, cand_occ c = o) l
  ∧ cand_columns <$> l
    = row_columns <$> filter (λ r : Row, pick_num o < OVERALLPICKNUM r) ms.
Proof.
  revert off. induction ms as [|r ms IH]; intros off; [done|].
  destruct (IH (S off)) as [IH1 IH2].
  rewrite fmap_cons, later_from_cons, filter_cons.
  unfold keep_later. cbn [merged_candidate merged_occ fst snd].
  case_decide.
  - split; [by constructor|]. rewrite !fmap_cons. by f_equal.
  - done.
Qed.

Lemma later_from_merge_rows off df o :
  Forall (λ c, cand_occ c = o) (later_from off (merge_rows o df))
  ∧ cand_columns <$> later_from off (merge_rows o df)
    = row_columns <$> later_rows df o.
Proof.
  unfold merge_rows, later_rows.
  destruct (filter (same_key o) df) as [|r ms] eqn:Hf.
  - done.
  - apply (later_from_matches off o (r :: ms)).
Qed.

End filtered_frame.

Section list_facts.
Context {A B C : Type}.

Lemma omap_omap (f : A → option B) (g : B → option C) (l : list A) :
  omap g (omap f l) = omap (λ x, f x ≫= g) l.
Proof.
  induction l as [|x l IH]; [done|]. csimpl.
  destruct (f x) as [y|]; csimpl; [|done].
  destruct (g y); by rewrite IH.
Qed.

Lemma omap_fmap (f : A → B) (g : B → option C) (l : list A) :
  omap g (f <$> l) = omap (g ∘ f) l.
Proof.
  induction l as [|x l IH]; [done|]. csimpl.
  destruct (g (f x)); by rewrite IH.
Qed.

Lemma omap_filter (P : A → Prop) `{!∀ x, Decision (P x)}
    (f g : A → option B) (l : list A) :
  (∀ x, x ∈ l → P x → f x = g x) →
  (∀ x, x ∈ l → ¬ P x → g x = None) →
  omap f (filter P l) = omap g l.
Proof.
  induction l as [|x l IH]; intros Hyes Hno; [done|].
  rewrite filter_cons. csimpl.
  assert (omap f (filter P l) = omap g l) as IH'.
  { apply IH; intros y ?; [apply Hyes | apply Hno]; by right. }
  case_decide as HP.
  - csimpl. rewrite (Hyes x) by (done || by left). by rewrite IH'.
  - rewrite (Hno x) by (done || by left). done.
Qed.

Lemma filter_all (P : A → Prop) `{!∀ x, Decision (P x)} (l : list A) :
  Forall P l → filter P l = l.
Proof.
  induction 1 as [|x l HP _ IH]; [done|].
  by rewrite filter_cons_True, IH.
Qed.

Lemma filter_none (P : A → Prop) `{!∀ x, Decision (P x)} (l : list A) :
  Forall (λ x, ¬ P x) l → filter P l = [].
Proof.
  induction 1 as [|x l HP _ IH]; [done|].
  by rewrite filter_cons_False, IH.
Qed.

End list_facts.

Section groups.
Implicit Types (df : list Row) (o : Occ) (c : Cand) (off : nat).

Lemma later_from_merge_cons off o (os : list Occ) df :
  later_from off (merge_on_team (o :: os) df) =
  later_from off (merge_rows o df)
  ++ later_from (off + length (merge_rows o df)) (merge_on_team os df).
Proof. unfold merge_on_team. by rewrite bind_cons, later_from_app. Qed.

(** Every row of [filtered] comes from the rows merged for one
    occurrence. *)
Lemma elem_of_frame off (occs : list Occ) df c :
  c ∈ later_from off (merge_on_team occs df) →
  cand_occ c ∈ occs
  ∧ ∃ off', c ∈ later_from off' (merge_rows (cand_occ c) df).
Proof.
  revert off. induction occs as [|o os IH]; intros off.
  - by intros ?%elem_of_nil.
  - rewrite later_from_merge_cons. intros [Hc|Hc]%elem_of_app.
    + destruct (later_from_merge_rows off df o) as [Hocc _].
      rewrite Forall_forall in Hocc. rewrite (Hocc c Hc).
      split; [by left | by exists off].
    + destruct (IH _ Hc) as [? ?]. split; [by right | done].
Qed.

(** The group of an occurrence is what that occurrence contributed. *)
Lemma group_frame off (occs : list Occ) df o :
  NoDup (occ_index <$> occs) → o ∈ occs →
  ∃ off', group (later_from off (merge_on_team occs df)) (occ_index o)
          = later_from off' (merge_rows o df).
Proof.
  revert off. induction occs as [|o1 os IH]; intros off Hnd Ho.
  - by apply elem_of_nil in Ho.
  - rewrite fmap_cons in Hnd. apply NoDup_cons in Hnd as [Hfresh Hnd].
    rewrite later_from_merge_cons. unfold group. rewrite filter_app.
    apply elem_of_cons in Ho as [->|Ho].
    + exists off. rewrite filter_all, filter_none.
      * by rewrite app_nil_r.
      * apply Forall_forall. intros c [Hc _]%elem_of_frame Heq.
        apply Hfresh. rewrite <- Heq. by apply list_elem_of_fmap_2.
      * destruct (later_from_merge_rows off df o1) as [Hocc _].
        eapply Forall_impl; [exact Hocc|]. by intros c ->.
    + destruct (IH (off + length (merge_rows o1 df))%nat Hnd Ho) as [off' Hg].
      exists off'. rewrite filter_none; [exact Hg|].
      destruct (later_from_merge_rows off df o1) as [Hocc _].
      eapply Forall_impl; [exact Hocc|]. intros c -> Heq.
      apply Hfresh. rewrite Heq. by apply list_elem_of_fmap_2.
Qed.

Lemma later_rows_nil_iff off df o :
  later_from off (merge_rows o df) = [] ↔ occ_next_pick df o = None.
Proof.
  destruct (later_from_merge_rows off df o) as [_ Hcols].
  unfold occ_next_pick. split.
  - intros Hnil. rewrite Hnil in Hcols. symmetry in Hcols.
    apply fmap_nil_inv in Hcols. by rewrite Hcols.
  - destruct (later_rows df o) as [|r rs]; [|done]. intros _.
    by apply fmap_nil_inv in Hcols.
Qed.

End groups.

Section pipeline.
Implicit Types (df : list Row) (o : Occ) (c : Cand) (off : nat).

Lemma StronglySorted_lt_filter (P : Occ → Prop) `{!∀ o, Decision (P o)}
    (occs : list Occ) :
  StronglySorted lt (occ_index <$> occs) →
  StronglySorted le (occ_index <$> filter P occs)
  ∧ NoDup (occ_index <$> filter P occs).
Proof.
  induction occs as [|o os IH]; intros Hs.
  - split; constructor.
  - rewrite fmap_cons in Hs. apply StronglySorted_cons in Hs as [Hall Hs].
    destruct (IH Hs) as [IH1 IH2]. rewrite filter_cons.
    case_decide; [|done]. rewrite fmap_cons. split.
    + apply StronglySorted_cons. split; [|done].
      apply Forall_forall.
      intros k (o' & -> & [_ Ho']%list_elem_of_filter)%list_elem_of_fmap.
      rewrite Forall_forall in Hall.
      apply Nat.lt_le_incl, Hall. by apply list_elem_of_fmap_2.
    + apply NoDup_cons. split; [|done].
      intros (o' & Heq & [_ Ho']%list_elem_of_filter)%list_elem_of_fmap.
      rewrite Forall_forall in Hall.
      pose proof (Hall (occ_index o') (list_elem_of_fmap_2 _ _ _ Ho')). lia.
Qed.

Lemma StronglySorted_lt_NoDup (l : list nat) : StronglySorted lt l → NoDup l.
Proof.
  induction 1 as [|x l _ IH Hall]; constructor; [|done].
  intros Hx. rewrite Forall_forall in Hall. specialize (Hall x Hx). lia.
Qed.

(** The sorted group keys are the indices of the occurrences that have a
    later pick, in the order of the occurrences. *)
Lemma group_keys_frame (occs : list Occ) df :
  StronglySorted lt (occ_index <$> occs) →
  group_keys (later_only (merge_on_team occs df))
  = occ_index <$> filter (λ o, is_Some (occ_next_pick df o)) occs.
Proof.
  intros Hs. pose proof (StronglySorted_lt_NoDup _ Hs) as Hnd.
  destruct (StronglySorted_lt_filter
              (λ o, is_Some (occ_next_pick df o)) occs Hs) as [Hsorted Hnd'].
  unfold group_keys, later_only.
  apply (StronglySorted_unique le); [|done|].
  { apply StronglySorted_merge_sort; apply _. }
  rewrite merge_sort_Permutation.
  apply NoDup_Permutation; [apply NoDup_remove_dups | done |].
  intros k. rewrite elem_of_remove_dups, !list_elem_of_fmap. split.
  - intros (c & -> & Hc). destruct (elem_of_frame _ _ _ _ Hc) as [Ho [off' Hc']].
    exists (cand_occ c). split; [done|].
    apply list_elem_of_filter. split; [|done].
    destruct (occ_next_pick df (cand_occ c)) eqn:Hnext; [done|].
    apply (later_rows_nil_iff off') in Hnext. rewrite Hnext in Hc'.
    by apply elem_of_nil in Hc'.
  - intros (o & -> & [Hlive Ho]%list_elem_of_filter).
    destruct (group_frame 0 occs df o Hnd Ho) as [off' Hg].
    destruct (later_from off' (merge_rows o df)) as [|c g] eqn:Hblock.
    { apply later_rows_nil_iff in Hblock. rewrite Hblock in Hlive.
      by destruct Hlive. }
    assert (c ∈ group (later_from 0 (merge_on_team occs df)) (occ_index o))
      as [Hk Hc]%list_elem_of_filter by (rewrite Hg; by left).
    by exists c.
Qed.

Lemma first_min_elem_of c (g : list Cand) : first_min c g ∈ c :: g.
Proof.
  revert c. induction g as [|c' g IH]; intros c; [by left|].
  unfold first_min. simpl. fold (first_min (if decide (candidate_pick c' < candidate_pick c) then c' else c) g).
  case_decide.
  - right. apply IH.
  - pose proof (IH c) as [Heq|Hin]%elem_of_cons.
    + rewrite Heq. by left.
    + by do 2 right.
Qed.

Lemma first_min_columns c (g : list Cand) (r : Row) (rs : list Row) :
  cand_columns c = row_columns r →
  cand_columns <$> g = row_columns <$> rs →
  cand_columns (first_min c g) = row_columns (earliest r rs).
Proof.
  revert c r rs. induction g as [|c' g IH]; intros c r rs Hc Hg.
  - symmetry in Hg. apply fmap_nil_inv in Hg as ->. done.
  - destruct rs as [|r' rs]; [done|].
    rewrite !fmap_cons in Hg. injection Hg as Hpick' Hname' Hg.
    unfold first_min, earliest. simpl. apply IH; [|done].
    assert (candidate_pick c = OVERALLPICKNUM r) as ->
      by (unfold cand_columns, row_columns in Hc; congruence).
    rewrite Hpick'. case_decide; [|done].
    unfold cand_columns, row_columns. congruence.
Qed.

(** Reading [next_player] back at the label [idxmin] returned. *)
Lemma loc_label (merged : list Merged) c :
  c ∈ later_only merged →
  (next_player ∘ snd)
    <$> list_find (λ c', cand_label c' = cand_label c) (later_only merged)
  = Some (next_player c).
Proof.
  intros Hc.
  destruct (list_find_elem_of (λ c', cand_label c' = cand_label c)
              (later_only merged) c Hc eq_refl) as [[i c'] Hfind].
  rewrite Hfind. simpl. f_equal. f_equal.
  apply list_find_Some in Hfind as (Hi & Hlabel & _).
  apply (later_from_label_inj 0 merged); [|done|done].
  apply list_elem_of_lookup. by exists i.
Qed.

(** The series [next_players], for any occurrences listed by increasing
    index: one observation for each occurrence that has a later pick. *)
Lemma pipeline_occ_next_pick (occs : list Occ) df :
  StronglySorted lt (occ_index <$> occs) →
  let filtered := later_only (merge_on_team occs df) in
  loc_next_player filtered (groupby_idxmin filtered)
  = omap (occ_next_pick df) occs.
Proof.
  intros Hs filtered. pose proof (StronglySorted_lt_NoDup _ Hs) as Hnd.
  unfold loc_next_player, groupby_idxmin.
  rewrite omap_omap. subst filtered. rewrite (group_keys_frame occs df Hs).
  rewrite omap_fmap. apply omap_filter.
  - intros o Ho Hlive. simpl.
    destruct (group_frame 0 occs df o Hnd Ho) as [off' Hg].
    unfold later_only. rewrite Hg.
    destruct (later_from_merge_rows off' df o) as [_ Hcols].
    unfold occ_next_pick in *.
    destruct (later_rows df o) as [|r rs]; [by destruct Hlive|].
    destruct (later_from off' (merge_rows o df)) as [|c g] eqn:Hblock; [done|].
    rewrite !fmap_cons in Hcols. injection Hcols as Hpick Hname Hcols.
    simpl.
    assert (first_min c g ∈ later_only (merge_on_team occs df)) as Hin.
    { pose proof (first_min_elem_of c g) as Hin. rewrite <- Hg in Hin.
      by apply list_elem_of_filter in Hin as [_ ?]. }
    fold (later_only (merge_on_team occs df)). rewrite (loc_label _ _ Hin).
    pose proof (first_min_columns c g r rs) as Hmin.
    unfold cand_columns, row_columns in Hmin.
    f_equal. specialize (Hmin ltac:(congruence) Hcols). congruence.
  - intros o _ Hdead. destruct (occ_next_pick df o); [|done].
    by destruct Hdead.
Qed.

End pipeline.

Section occurrences.
Implicit Types (df : list Row) (o : Occ) (r : Row) (off : nat).

Lemma occurrences_from_0 df player :
  occurrences df player = occurrences_from 0 df player.
Proof. reflexivity. Qed.

Lemma occurrences_from_cons off r df player :
  occurrences_from off (r :: df) player =
  if decide (PLAYERNAME r = player)
  then mkOcc off (SNAKEDRAFTNUM r) (draft_slot r) (OVERALLPICKNUM r)
       :: occurrences_from (S off) df player
  else occurrences_from (S off) df player.
Proof.
  unfold occurrences_from. rewrite imap_cons. csimpl.
  rewrite Nat.add_0_r.
  assert (imap ((λ i r0, ((off + i)%nat, r0)) ∘ S) df
          = imap (λ i r0, ((S off + i)%nat, r0)) df) as ->.
  { apply imap_ext. intros i x _. simpl. f_equal. lia. }
  by case_decide.
Qed.

Lemma occurrences_from_ge off df player o :
  o ∈ occurrences_from off df player → (off ≤ occ_index o)%nat.
Proof.
  revert off. induction df as [|r df IH]; intros off.
  - by intros ?%elem_of_nil.
  - rewrite occurrences_from_cons. case_decide.
    + intros [->|Ho%IH]%elem_of_cons; simpl; lia.
    + intros Ho%IH. lia.
Qed.

(** Occurrences are listed by increasing label. *)
Lemma occurrences_from_sorted off df player :
  StronglySorted lt (occ_index <$> occurrences_from off df player).
Proof.
  revert off. induction df as [|r df IH]; intros off.
  - constructor.
  - rewrite occurrences_from_cons. case_decide; [|apply IH].
    rewrite fmap_cons. apply StronglySorted_cons. split; [|apply IH].
    apply Forall_forall. intros k (o & -> & Ho%occurrences_from_ge)%list_elem_of_fmap.
    simpl. lia.
Qed.

Lemma later_rows_later_picks df r i :
  later_rows df (mkOcc i (SNAKEDRAFTNUM r) (draft_slot r) (OVERALLPICKNUM r))
  = later_picks df r.
Proof.
  unfold later_rows, later_picks. rewrite list_filter_filter.
  apply list_filter_iff. intros r'. unfold same_key, same_team. simpl. tauto.
Qed.

Lemma omap_occ_next_pick off df df' player :
  omap (occ_next_pick df) (occurrences_from off df' player)
  = omap (spec_next_pick df) (filter (λ r : Row, PLAYERNAME r = player) df').
Proof.
  revert off. induction df' as [|r df' IH]; intros off; [done|].
  rewrite occurrences_from_cons, filter_cons. case_decide; [|apply IH].
  csimpl. unfold occ_next_pick at 1, spec_next_pick at 1.
  rewrite later_rows_later_picks, IH. done.
Qed.

(** The observations, one per occurrence that has a later pick. *)
Lemma next_players_spec df player :
  next_players df player
  = omap (spec_next_pick df) (filter (λ r : Row, PLAYERNAME r = player) df).
Proof.
  unfold next_players. rewrite occurrences_from_0.
  rewrite (pipeline_occ_next_pick _ df (occurrences_from_sorted 0 df player)).
  apply omap_occ_next_pick.
Qed.

Lemma earliest_cons r r' (rs : list Row) :
  earliest r (r' :: rs)
  = earliest (if decide (OVERALLPICKNUM r' < OVERALLPICKNUM r) then r' else r) rs.
Proof. reflexivity. Qed.

Lemma earliest_elem_of r (rs : list Row) : earliest r rs ∈ r :: rs.
Proof.
  revert r. induction rs as [|r' rs IH]; intros r; [by left|].
  rewrite earliest_cons. case_decide.
  - right. apply IH.
  - pose proof (IH r) as [Heq|Hin]%elem_of_cons.
    + rewrite Heq. by left.
    + by do 2 right.
Qed.

Lemma earliest_le_first r (rs : list Row) :
  OVERALLPICKNUM (earliest r rs) ≤ OVERALLPICKNUM r.
Proof.
  revert r. induction rs as [|r' rs IH]; intros r; [done|].
  rewrite earliest_cons. case_decide; [|apply IH].
  etrans; [apply IH|lia].
Qed.

Lemma earliest_le r (rs : list Row) r' :
  r' ∈ r :: rs → OVERALLPICKNUM (earliest r rs) ≤ OVERALLPICKNUM r'.
Proof.
  revert r. induction rs as [|r1 rs IH]; intros r.
  - by intros ->%list_elem_of_singleton.
  - rewrite earliest_cons.
    intros [->|[->|Hin]%elem_of_cons]%elem_of_cons.
    + etrans; [apply earliest_le_first|]. case_decide; lia.
    + etrans; [apply earliest_le_first|]. case_decide; lia.
    + apply IH. by right.
Qed.

(** What [spec_next_pick] selects. *)
Lemma spec_next_pick_Some df r p :
  spec_next_pick df r = Some p →
  ∃ r', r' ∈ df ∧ same_team r r' ∧ OVERALLPICKNUM r < OVERALLPICKNUM r'
        ∧ PLAYERNAME r' = p
        ∧ ∀ r'', r'' ∈ df → same_team r r'' →
                 OVERALLPICKNUM r < OVERALLPICKNUM r'' →
                 OVERALLPICKNUM r' ≤ OVERALLPICKNUM r''.
Proof.
  unfold spec_next_pick. destruct (later_picks df r) as [|c cs] eqn:Hl; [done|].
  intros [= <-]. exists (earliest c cs).
  pose proof (earliest_elem_of c cs) as Hin. rewrite <- Hl in Hin.
  apply list_elem_of_filter in Hin as [[? ?] ?].
  split_and!; try done.
  intros r'' Hr'' Hteam Hlater. apply earliest_le. rewrite <- Hl.
  by apply list_elem_of_filter.
Qed.

Lemma spec_next_pick_None df r :
  spec_next_pick df r = None ↔
  ∀ r', r' ∈ df → same_team r r' → ¬ OVERALLPICKNUM r < OVERALLPICKNUM r'.
Proof.
  unfold spec_next_pick. split.
  - destruct (later_picks df r) as [|c cs] eqn:Hl; [|done].
    intros _ r' Hr' Hteam Hlater.
    assert (r' ∈ later_picks df r) as Hin by (by apply list_elem_of_filter).
    rewrite Hl in Hin. by apply elem_of_nil in Hin.
  - intros Hnone. destruct (later_picks df r) as [|c cs] eqn:Hl; [done|].
    assert (c ∈ later_picks df r) as [[? ?] ?]%list_elem_of_filter
      by (rewrite Hl; by left).
    by destruct (Hnone c).
Qed.

End occurrences.

Section distribution.
Implicit Types (s : list string) (df : list Row).

Lemma elem_of_value_counts s vc :
  vc ∈ value_counts s ↔ vc.1 ∈ s ∧ vc.2 = count_of vc.1 s.
Proof.
  unfold value_counts. rewrite merge_sort_Permutation, list_elem_of_fmap.
  setoid_rewrite elem_of_remove_dups. split.
  - by intros (v & -> & ?).
  - intros [? ?]. exists vc.1. split; [|done]. destruct vc; simpl in *. congruence.
Qed.

Lemma NoDup_value_counts s : NoDup (fst <$> value_counts s).
Proof.
  unfold value_counts. rewrite merge_sort_Permutation.
  rewrite <- list_fmap_compose.
  assert (∀ l : list string, fst ∘ (λ v, (v, count_of v s)) <$> l = l) as ->.
  { induction l as [|v l IH]; [done|]. rewrite fmap_cons. simpl. by f_equal. }
  apply NoDup_remove_dups.
Qed.

Lemma count_of_pos v s : v ∈ s → (0 < count_of v s)%nat.
Proof.
  intros Hv. unfold count_of.
  assert (v ∈ filter (λ x, x = v) s) as Hin by (by apply list_elem_of_filter).
  destruct (filter (λ x, x = v) s); [by apply elem_of_nil in Hin | simpl; lia].
Qed.

Lemma value_counts_nil_iff s : value_counts s = [] ↔ s = [].
Proof.
  split; [|by intros ->].
  intros Hnil. destruct s as [|v s]; [done|].
  assert ((v, count_of v (v :: s)) ∈ value_counts (v :: s)) as Hin.
  { apply elem_of_value_counts. simpl. split; [by left | done]. }
  rewrite Hnil in Hin. by apply elem_of_nil in Hin.
Qed.

Lemma distribution_nil_iff s : distribution s = [] ↔ s = [].
Proof.
  rewrite <- value_counts_nil_iff. unfold distribution. split.
  - apply fmap_nil_inv.
  - by intros ->.
Qed.

(** The table has one row per distinct observed player, and its count is
    the number of observations of that player. *)
Lemma elem_of_distribution s (row : DistRow) :
  row ∈ distribution s →
  dist_next_player row ∈ s ∧ count row = count_of (dist_next_player row) s.
Proof.
  unfold distribution. intros (vc & -> & Hvc)%list_elem_of_fmap.
  by apply elem_of_value_counts in Hvc.
Qed.

Lemma distribution_covers s v :
  v ∈ s → ∃ row, row ∈ distribution s ∧ dist_next_player row = v
                 ∧ count row = count_of v s.
Proof.
  intros Hv. unfold distribution.
  eexists. split.
  - apply list_elem_of_fmap_2. apply (elem_of_value_counts s (v, count_of v s)).
    by split.
  - done.
Qed.

Lemma elem_of_le_sum_list (l : list nat) n : n ∈ l → (n ≤ sum_list l)%nat.
Proof.
  induction 1 as [|x y l _ IH]; simpl; lia.
Qed.

Lemma Q_of_nat_add a b : (Q_of_nat (a + b) == Q_of_nat a + Q_of_nat b)%Q.
Proof. unfold Q_of_nat. by rewrite Nat2Z.inj_add, inject_Z_plus. Qed.

Lemma sum_pct_scaled (total : nat) (dist : list (string * nat)) :
  (sum_pct ((λ vc : string * nat,
               mkDistRow vc.1 vc.2 (Q_of_nat vc.2 / Q_of_nat total * 100)) <$> dist)
   == Q_of_nat (sum_list (snd <$> dist)) / Q_of_nat total * 100)%Q.
Proof.
  unfold sum_pct. induction dist as [|vc dist IH].
  - rewrite !fmap_nil. cbn [foldr sum_list].
    change (Q_of_nat 0) with 0%Q. unfold Qdiv. ring.
  - rewrite !fmap_cons. cbn [foldr sum_list pct]. rewrite IH, Q_of_nat_add.
    unfold Qdiv, id. ring.
Qed.

Lemma sum_pct_distribution s : s ≠ [] → (sum_pct (distribution s) == 100)%Q.
Proof.
  intros Hs. unfold distribution. rewrite sum_pct_scaled. apply pct_full.
  destruct s as [|v s]; [done|].
  pose proof (count_of_pos v (v :: s) ltac:(by left)) as Hpos.
  assert (count_of v (v :: s) ∈ snd <$> value_counts (v :: s)) as Hin.
  { apply list_elem_of_fmap. exists (v, count_of v (v :: s)). split; [done|].
    apply elem_of_value_counts. simpl. split; [by left | done]. }
  apply elem_of_le_sum_list in Hin. lia.
Qed.

(** Both guards return what the last statements would. *)
Lemma next_pick_distribution_next_players df player :
  next_pick_distribution df player = distribution (next_players df player).
Proof.
  unfold next_pick_distribution, next_players.
  destruct (occurrences df player) as [|o occs]; [reflexivity|].
  destruct (later_only (merge_on_team (o :: occs) df)); reflexivity.
Qed.

Lemma omap_nil_iff {A B} (f : A → option B) (l : list A) :
  omap f l = [] ↔ ∀ x, x ∈ l → f x = None.
Proof.
  split.
  - intros Hnil x Hx. destruct (f x) as [y|] eqn:Hfx; [|done].
    assert (y ∈ omap f l) as Hy by (apply list_elem_of_omap; eauto).
    rewrite Hnil in Hy. by apply elem_of_nil in Hy.
  - intros Hnone. destruct (omap f l) as [|y k] eqn:Ho; [done|].
    assert (y ∈ omap f l) as (x & Hx & Hfx)%list_elem_of_omap
      by (rewrite Ho; by left).
    rewrite (Hnone x Hx) in Hfx. done.
Qed.

End distribution.

(** C2.  [next_pick_distribution] draws one observation from each
    occurrence of the player that has a strictly later pick by the same
    team in the same draft, namely the player of the row of that team
    whose pick number is least among the strictly greater ones, and none
    from an occurrence without a later pick; the returned table counts
    these observations by player. *)
Theorem next_pick_observations (df : list Row) (player : string) :
  next_players df player
  = omap (spec_next_pick df) (filter (λ r : Row, PLAYERNAME r = player) df)
  ∧ (∀ r : Row,
       match spec_next_pick df r with
       | Some p =>
           ∃ r' : Row, r' ∈ df ∧ same_team r r'
             ∧ OVERALLPICKNUM r < OVERALLPICKNUM r'
             ∧ PLAYERNAME r' = p
             ∧ ∀ r'' : Row, r'' ∈ df → same_team r r'' →
                 OVERALLPICKNUM r < OVERALLPICKNUM r'' →
                 OVERALLPICKNUM r' ≤ OVERALLPICKNUM r''
       | None =>
           ∀ r' : Row, r' ∈ df → same_team r r' →
             ¬ OVERALLPICKNUM r < OVERALLPICKNUM r'
       end)
  ∧ next_pick_distribution df player = distribution (next_players df player)
  ∧ (∀ row, row ∈ next_pick_distribution df player →
       dist_next_player row ∈ next_players df player
       ∧ count row = count_of (dist_next_player row) (next_players df player))
  ∧ (∀ v, v ∈ next_players df player →
       ∃ row, row ∈ next_pick_distribution df player
              ∧ dist_next_player row = v
              ∧ count row = count_of v (next_players df player)).
Proof.
  split; [apply next_players_spec|]. split.
  { intros r. destruct (spec_next_pick df r) as [p|] eqn:Hspec.
    - by apply spec_next_pick_Some.
    - by apply spec_next_pick_None. }
  rewrite next_pick_distribution_next_players. split; [done|]. split.
  - apply elem_of_distribution.
  - apply distribution_covers.
Qed.

(** The scenario of the specification: A is followed by B on one team and
    closes the other team's draft. *)
Example next_pick_distribution_sample :
  next_players df_sample "A" = ["B"]
  ∧ next_pick_distribution df_sample "A" = [mkDistRow "B" 1 100].
Proof. split; vm_compute; reflexivity. Qed.

(** C7.  [next_pick_distribution], which has no failing path, returns the
    empty table exactly when the player does not occur in the frame or
    every occurrence of the player is the last pick of its team in its
    draft. *)
Theorem next_pick_distribution_empty_iff (df : list Row) (player : string) :
  next_pick_distribution df player = [] ↔
  (¬ ∃ r : Row, r ∈ df ∧ PLAYERNAME r = player)
  ∨ (∀ r : Row, r ∈ df → PLAYERNAME r = player →
       ∀ r' : Row, r' ∈ df → same_team r r' →
         ¬ OVERALLPICKNUM r < OVERALLPICKNUM r').
Proof.
  rewrite next_pick_distribution_next_players, distribution_nil_iff.
  rewrite next_players_spec, omap_nil_iff. split.
  - intros Hnone. right. intros r Hr Hp. apply spec_next_pick_None.
    apply Hnone. by apply list_elem_of_filter.
  - intros [Habsent|Hlast] r [Hp Hr]%list_elem_of_filter.
    + destruct Habsent. eauto.
    + apply spec_next_pick_None. by apply Hlast.
Qed.

(** C8.  Whenever the returned table is not empty, its percentages sum to
    100 in exact rational arithmetic. *)
Theorem next_pick_distribution_pct_sum (df : list Row) (player : string) :
  next_pick_distribution df player ≠ [] →
  (sum_pct (next_pick_distribution df player) == 100)%Q.
Proof.
  rewrite next_pick_distribution_next_players, distribution_nil_iff.
  apply sum_pct_distribution.
Qed.

Lemma next_pick_distribution_pct_sum_witness :
  next_pick_distribution df_two_teams "A" ≠ []
  ∧ (sum_pct (next_pick_distribution df_two_teams "A") == 100)%Q.
Proof.
  split; [vm_compute; discriminate|].
  apply (next_pick_distribution_pct_sum df_two_teams "A").
  vm_compute. discriminate.
Defined.

(** ** More on the draft model *)

(** The position a slot holds in a round is read off by [slot] itself:
    applied to a row that carries the returned slot as its position, in
    the same round, it gives the position back.  And a returned slot is a
    team number, between 1 and 12, exactly when the position was one. *)
Theorem slot_involutive (row : Pick) :
  ∃ s, slot row = Return s
    ∧ slot (mkPick (PLAYERNAME row) (SNAKEDRAFTNUM row) (OVERALLPICKNUM row)
                   (player_info row) (round row) s)
      = Return (pick_in_round row)
    ∧ (1 ≤ s ≤ NUM_TEAMS ↔ 1 ≤ pick_in_round row ≤ NUM_TEAMS).
Proof.
  unfold slot, NUM_TEAMS. simpl. case_decide.
  - eexists. split; [done|]. split; [done|]. done.
  - eexists. split; [done|]. split; [f_equal; lia | lia].
Qed.

(** What [get_data] makes of a row. *)
Lemma get_data_row_arith (drafts : list Draft) (infos : list PlayerInfo)
    (rows : list Row) (r : Row) :
  get_data drafts infos = Return rows → r ∈ rows →
  round r = np_ceil_div (OVERALLPICKNUM r)
  ∧ pick_in_round r = OVERALLPICKNUM r - (round r - 1) * 12
  ∧ draft_slot r = (if Z.odd (round r) then pick_in_round r
                    else 13 - pick_in_round r).
Proof.
  intros Hget%mapM_Return Hr.
  destruct (Forall2_elem_of_r _ _ _ _ Hget Hr) as (m & _ & Hm).
  pose proof (derive_derived_columns_ok _ _ Hm) as (_ & Hodd & Heven & _).
  apply derive_Return in Hm as (_ & _ & _ & Hround & Hpir & _).
  unfold NUM_TEAMS in *. split; [done|]. split; [done|].
  destruct (Z.odd (round r)) eqn:Ho.
  - by apply Hodd.
  - rewrite Heven by (by rewrite <- Z.negb_odd, Ho). lia.
Qed.

(** In a frame built by [get_data], the round and the slot of a row give
    its pick number back; so within a draft no two picks of one round fall
    to the same slot. *)
Theorem get_data_pick_of_round_slot (drafts : list Draft)
    (infos : list PlayerInfo) (rows : list Row) :
  get_data drafts infos = Return rows →
  (∀ r : Row, r ∈ rows →
     OVERALLPICKNUM r
     = (round r - 1) * NUM_TEAMS
       + (if Z.odd (round r) then draft_slot r else NUM_TEAMS + 1 - draft_slot r))
  ∧ (∀ r r' : Row, r ∈ rows → r' ∈ rows →
       round r = round r' → draft_slot r = draft_slot r' →
       OVERALLPICKNUM r = OVERALLPICKNUM r').
Proof.
  intros Hget.
  assert (∀ r : Row, r ∈ rows →
     OVERALLPICKNUM r
     = (round r - 1) * NUM_TEAMS
       + (if Z.odd (round r) then draft_slot r else NUM_TEAMS + 1 - draft_slot r))
    as Hpick.
  { intros r Hr.
    destruct (get_data_row_arith _ _ _ _ Hget Hr) as (_ & Hpir & Hslot).
    unfold NUM_TEAMS. rewrite Hslot. destruct (Z.odd (round r)); lia. }
  split; [done|].
  intros r r' Hr Hr' Hround Hslot.
  rewrite (Hpick r Hr), (Hpick r' Hr'), Hround, Hslot. done.
Qed.

Lemma get_data_pick_of_round_slot_witness :
  ∃ rows, get_data drafts_two_rounds infos_two_rounds = Return rows
    ∧ ∀ r : Row, r ∈ rows →
        OVERALLPICKNUM r
        = (round r - 1) * NUM_TEAMS
          + (if Z.odd (round r) then draft_slot r
             else NUM_TEAMS + 1 - draft_slot r).
Proof.
  eexists. split; [vm_compute; reflexivity|].
  apply (get_data_pick_of_round_slot drafts_two_rounds infos_two_rounds).
  vm_compute. reflexivity.
Defined.

(** The snake turn: in a frame built by [get_data], the pick that closes
    a round and the pick that opens the next one fall to the same slot,
    for pick numbers below [2^53] in absolute value. *)
Theorem get_data_snake_turn (drafts : list Draft) (infos : list PlayerInfo)
    (rows : list Row) (r r' : Row) :
  get_data drafts infos = Return rows → r ∈ rows → r' ∈ rows →
  - 2 ^ 53 < OVERALLPICKNUM r → OVERALLPICKNUM r' < 2 ^ 53 →
  OVERALLPICKNUM r mod NUM_TEAMS = 0 →
  OVERALLPICKNUM r' = OVERALLPICKNUM r + 1 →
  round r' = round r + 1 ∧ draft_slot r' = draft_slot r.
Proof.
  intros Hget Hr Hr' Hlow Hhigh Hmod Hnext.
  destruct (get_data_row_arith _ _ _ _ Hget Hr) as (Hround & Hpir & Hslot).
  destruct (get_data_row_arith _ _ _ _ Hget Hr') as (Hround' & Hpir' & Hslot').
  pose proof (np_ceil_div_bounds (OVERALLPICKNUM r) ltac:(lia)) as Hb.
  pose proof (np_ceil_div_bounds (OVERALLPICKNUM r') ltac:(lia)) as Hb'.
  rewrite <- Hround in Hb. rewrite <- Hround' in Hb'.
  unfold NUM_TEAMS in *.
  apply Z.mod_divide in Hmod as [k Hk]; [|lia].
  assert (round r = k) as Hrk by lia.
  assert (round r' = k + 1) as Hrk' by lia.
  split; [lia|]. rewrite Hslot, Hslot', Hrk'. rewrite Hrk in *.
  rewrite Z.odd_add. simpl. destruct (Z.odd k); simpl; lia.
Qed.

Lemma get_data_snake_turn_witness :
  ∃ (rows : list Row) (r r' : Row),
    get_data drafts_two_rounds infos_two_rounds = Return rows
    ∧ r ∈ rows ∧ r' ∈ rows
    ∧ OVERALLPICKNUM r = 12 ∧ OVERALLPICKNUM r' = 13
    ∧ round r' = round r + 1 ∧ draft_slot r' = draft_slot r.
Proof.
  eexists _, (row "B" 1 12 12), (mkRow (mkPick "C" 1 13 (Some (mkPlayerInfo "C" "SF" "RB" 9)) 2 1) 12).
  split; [vm_compute; reflexivity|].
  split; [vm_compute; by do 1 right; left|].
  split; [vm_compute; by do 2 right; left|].
  split; [reflexivity|]. split; [reflexivity|].
  eapply (get_data_snake_turn drafts_two_rounds infos_two_rounds).
  - vm_compute. reflexivity.
  - vm_compute. by do 1 right; left.
  - vm_compute. by do 2 right; left.
  - reflexivity.
  - reflexivity.
  - reflexivity.
  - reflexivity.
Defined.

(** In a frame built by [get_data], a slot's later pick lies in a later
    round: a team picks once per round. *)
Theorem get_data_later_pick_later_round (drafts : list Draft)
    (infos : list PlayerInfo) (rows : list Row) (r r' : Row) :
  get_data drafts infos = Return rows → r ∈ rows → r' ∈ rows →
  draft_slot r' = draft_slot r →
  OVERALLPICKNUM r < OVERALLPICKNUM r' →
  round r < round r'.
Proof.
  intros Hget Hr Hr' Hslot Hlater.
  destruct (get_data_row_arith _ _ _ _ Hget Hr) as (Hround & Hpir & Hs).
  destruct (get_data_row_arith _ _ _ _ Hget Hr') as (Hround' & Hpir' & Hs').
  pose proof (np_ceil_div_mono (OVERALLPICKNUM r) (OVERALLPICKNUM r')
                ltac:(lia)) as Hmono.
  rewrite <- Hround, <- Hround' in Hmono.
  destruct (decide (round r < round r')) as [|Hge]; [done|]. exfalso.
  assert (round r' = round r) as Heq by lia.
  rewrite Hs, Hs', Heq in Hslot. rewrite Heq in Hpir'.
  destruct (Z.odd (round r)); lia.
Qed.

Lemma get_data_later_pick_later_round_witness :
  ∃ (rows : list Row) (r r' : Row),
    get_data drafts_two_rounds infos_two_rounds = Return rows
    ∧ r ∈ rows ∧ r' ∈ rows
    ∧ OVERALLPICKNUM r = 1 ∧ OVERALLPICKNUM r' = 24
    ∧ round r < round r'.
Proof.
  eexists _, (mkRow (mkPick "A" 1 1 (Some (mkPlayerInfo "A" "KC" "QB" 7)) 1 1) 1),
             (row "D" 1 24 1).
  split; [vm_compute; reflexivity|].
  split; [vm_compute; by left|].
  split; [vm_compute; by do 3 right; left|].
  split; [reflexivity|]. split; [reflexivity|].
  eapply (get_data_later_pick_later_round drafts_two_rounds infos_two_rounds).
  - vm_compute. reflexivity.
  - vm_compute. by left.
  - vm_compute. by do 3 right; left.
  - reflexivity.
  - reflexivity.
Defined.

(** ** The left join of [get_data] *)

Lemma derive_Return_info m r : derive m = Return r → player_info r = m.2.
Proof.
  destruct m as [d i]. unfold derive. simpl.
  destruct (raw_OVERALLPICKNUM d) as [n|]; simpl; [|discriminate].
  unfold slot. case_decide; simpl; by intros [= <-].
Qed.

Lemma elem_of_merge_player_info_info drafts infos d i :
  (d, i) ∈ merge_player_info drafts infos →
  match i with
  | Some x => x ∈ infos ∧ Name x = raw_PLAYERNAME d
  | None => ∀ x, x ∈ infos → Name x ≠ raw_PLAYERNAME d
  end.
Proof.
  unfold merge_player_info. intros (d' & Hm & Hd)%list_elem_of_bind.
  destruct (filter (λ x, Name x = raw_PLAYERNAME d') infos) as [|x xs] eqn:Hf.
  - apply list_elem_of_singleton in Hm as [= -> ->].
    intros x Hx Hname.
    assert (x ∈ filter (λ x, Name x = raw_PLAYERNAME d') infos) as Hin
      by (by apply list_elem_of_filter).
    rewrite Hf in Hin. by apply elem_of_nil in Hin.
  - apply list_elem_of_fmap in Hm as (y & [= -> ->] & Hy).
    rewrite <- Hf in Hy. by apply list_elem_of_filter in Hy as [? ?].
Qed.

(** The metadata [get_data] attaches to a row is a row of the player table
    with the same name, and a row without metadata has a name the table
    does not know. *)
Theorem get_data_metadata (drafts : list Draft) (infos : list PlayerInfo)
    (rows : list Row) :
  get_data drafts infos = Return rows →
  ∀ r : Row, r ∈ rows →
    match player_info r with
    | Some i => i ∈ infos ∧ Name i = PLAYERNAME r
    | None => ∀ i, i ∈ infos → Name i ≠ PLAYERNAME r
    end.
Proof.
  intros Hget%mapM_Return r Hr.
  destruct (Forall2_elem_of_r _ _ _ _ Hget Hr) as ([d i] & Hm & Hd).
  pose proof (derive_Return_info _ _ Hd) as Hinfo.
  apply derive_Return in Hd as (_ & Hname & _). simpl in *.
  rewrite Hinfo, Hname. apply (elem_of_merge_player_info_info drafts infos d i Hm).
Qed.

Lemma get_data_metadata_witness :
  ∃ rows : list Row,
    get_data drafts_two_rounds infos_two_rounds = Return rows
    ∧ ∀ r : Row, r ∈ rows →
        match player_info r with
        | Some i => i ∈ infos_two_rounds ∧ Name i = PLAYERNAME r
        | None => ∀ i, i ∈ infos_two_rounds → Name i ≠ PLAYERNAME r
        end.
Proof.
  eexists. split; [vm_compute; reflexivity|].
  apply (get_data_metadata drafts_two_rounds infos_two_rounds).
  vm_compute. reflexivity.
Defined.

Lemma filter_name_unique (infos : list PlayerInfo) (name : string) :
  NoDup (Name <$> infos) →
  (length (filter (λ i, Name i = name) infos) ≤ 1)%nat.
Proof.
  induction infos as [|i infos IH]; [simpl; lia|].
  rewrite fmap_cons. intros [Hfresh Hnd]%NoDup_cons.
  rewrite filter_cons. case_decide as Hi; [|by apply IH].
  rewrite filter_none; [simpl; lia|].
  apply Forall_forall. intros j Hj Hname. apply Hfresh.
  rewrite Hi, <- Hname. by apply list_elem_of_fmap_2.
Qed.

Lemma merge_player_info_unique (drafts : list Draft) (infos : list PlayerInfo) :
  NoDup (Name <$> infos) → fst <$> merge_player_info drafts infos = drafts.
Proof.
  intros Hnd. unfold merge_player_info.
  induction drafts as [|d drafts IH]; [done|].
  rewrite bind_cons, fmap_app, IH. 
  pose proof (filter_name_unique infos (raw_PLAYERNAME d) Hnd) as Hlen.
  destruct (filter (λ i, Name i = raw_PLAYERNAME d) infos) as [|x [|y xs]];
    simpl in *; [done | done | lia].
Qed.

(** The left join of [get_data] drops no pick: every draft row is found
    in the returned frame.  When no name occurs twice in the player table,
    the frame has exactly the draft rows, once each and in their order. *)
Theorem get_data_keeps_picks (drafts : list Draft) (infos : list PlayerInfo)
    (rows : list Row) :
  get_data drafts infos = Return rows →
  (∀ d, d ∈ drafts → ∃ r : Row, r ∈ rows ∧ same_pick d r)
  ∧ (NoDup (Name <$> infos) → Forall2 same_pick drafts rows).
Proof.
  intros Hget%mapM_Return.
  assert (∀ m r, derive m = Return r → same_pick m.1 r) as Hsame.
  { intros m r (Hn & Hname & Hdraft & _)%derive_Return. done. }
  split.
  - intros d Hd. destruct (merge_player_info_covers drafts infos d Hd) as [i Hi].
    destruct (Forall2_elem_of_l _ _ _ _ Hget Hi) as (r & Hr & Hm).
    exists r. split; [done|]. by apply (Hsame (d, i)).
  - intros Hnd. rewrite <- (merge_player_info_unique drafts infos Hnd).
    apply Forall2_fmap_l. eapply Forall2_impl; [exact Hget|].
    intros m r. apply Hsame.
Qed.

Lemma get_data_keeps_picks_witness :
  ∃ rows : list Row,
    get_data drafts_two_rounds infos_two_rounds = Return rows
    ∧ Forall2 same_pick drafts_two_rounds rows.
Proof.
  eexists. split; [vm_compute; reflexivity|].
  eapply (get_data_keeps_picks drafts_two_rounds infos_two_rounds).
  - vm_compute. reflexivity.
  - apply (bool_decide_unpack _). vm_compute. exact I.
Defined.

(** ** More on the co-draft analyzer *)

Lemma pair_set_same_rows (df1 df2 : list Row) (player : string) :
  (∀ r : Row, r ∈ df1 ↔ r ∈ df2) → pair_set df1 player = pair_set df2 player.
Proof.
  intros Hrows. apply set_eq. intros k. rewrite !elem_of_pair_set.
  by setoid_rewrite Hrows.
Qed.

(** [co_draft_multiple] reads the frame as a set of rows: two frames with
    the same rows, in whatever order and however often repeated, give the
    same result. *)
Theorem co_draft_multiple_same_rows (df1 df2 : list Row) (players : list string) :
  (∀ r : Row, r ∈ df1 ↔ r ∈ df2) →
  co_draft_multiple df1 players = co_draft_multiple df2 players.
Proof.
  intros Hrows. destruct players as [|p others]; [done|].
  rewrite !co_draft_multiple_cons.
  rewrite (pair_set_same_rows df1 df2 p Hrows).
  assert (pair_set df1 <$> others = pair_set df2 <$> others) as ->; [|done].
  apply list_fmap_ext. intros _ q _. by apply pair_set_same_rows.
Qed.

Lemma co_draft_multiple_same_rows_witness :
  co_draft_multiple (reverse df_sample ++ df_sample) ["A"; "B"]
  = co_draft_multiple df_sample ["A"; "B"].
Proof.
  apply (co_draft_multiple_same_rows (reverse df_sample ++ df_sample) df_sample).
  intros r. rewrite elem_of_app, elem_of_reverse. tauto.
Defined.

(** The result depends on the list of players only through its first
    player and the set of its players: repeating a player, or reordering
    the others, changes none of the four figures. *)
Theorem co_draft_multiple_same_players (df : list Row) (l1 l2 : list string) :
  l1 ≠ [] → head l1 = head l2 → (∀ p, p ∈ l1 ↔ p ∈ l2) →
  ∃ r1 r2, co_draft_multiple df l1 = Return r1
    ∧ co_draft_multiple df l2 = Return r2
    ∧ num_first r1 = num_first r2
    ∧ num_all r1 = num_all r2
    ∧ pct_together r1 = pct_together r2
    ∧ common_pairs r1 = common_pairs r2.
Proof.
  intros Hne Hhead Hset.
  destruct l1 as [|p1 o1]; [done|].
  destruct l2 as [|p2 o2]; [done|]. injection Hhead as ->.
  do 2 eexists. split; [apply co_draft_multiple_cons|].
  split; [apply co_draft_multiple_cons|]. simpl.
  assert (foldl (∩) (pair_set df p2) (pair_set df <$> o1)
          = foldl (∩) (pair_set df p2) (pair_set df <$> o2)) as ->; [|done].
  apply set_eq. intros k. rewrite !elem_of_common.
  by setoid_rewrite Hset.
Qed.

Lemma co_draft_multiple_same_players_witness :
  ∃ r1 r2, co_draft_multiple df_sample ["A"; "B"; "B"; "A"] = Return r1
    ∧ co_draft_multiple df_sample ["A"; "B"] = Return r2
    ∧ num_first r1 = num_first r2
    ∧ num_all r1 = num_all r2
    ∧ pct_together r1 = pct_together r2
    ∧ common_pairs r1 = common_pairs r2.
Proof.
  apply (co_draft_multiple_same_players df_sample ["A"; "B"; "B"; "A"] ["A"; "B"]).
  - discriminate.
  - reflexivity.
  - intros p. rewrite !elem_of_cons. tauto.
Defined.

Lemma pct_mono a b n :
  (a ≤ b)%nat →
  (Q_of_nat a / Q_of_nat n * 100 <= Q_of_nat b / Q_of_nat n * 100)%Q.
Proof.
  intros Hab. destruct n as [|n].
  - change (Q_of_nat 0) with 0%Q. unfold Qdiv.
    setoid_replace (/ 0)%Q with 0%Q using relation Qeq by reflexivity.
    rewrite !Qmult_0_r, !Qmult_0_l. apply Qle_refl.
  - apply Qmult_le_compat_r; [|done].
    apply Qmult_le_compat_r.
    + unfold Q_of_nat. rewrite <- Zle_Qle. lia.
    + apply Qinv_le_0_compat, Qlt_le_weak, Q_of_nat_pos. lia.
Qed.

(** Asking for more players can only lose team-draft keys: with further
    players appended, [common_pairs] shrinks, [num_all] and [pct_together]
    do not grow, and [num_first] stays. *)
Theorem co_draft_multiple_more_players (df : list Row) (players more : list string) :
  players ≠ [] →
  ∃ r1 r2, co_draft_multiple df players = Return r1
    ∧ co_draft_multiple df (players ++ more) = Return r2
    ∧ common_pairs r2 ⊆ common_pairs r1
    ∧ num_first r2 = num_first r1
    ∧ (num_all r2 ≤ num_all r1)%nat
    ∧ (pct_together r2 <= pct_together r1)%Q.
Proof.
  intros Hne. destruct players as [|p others]; [done|].
  do 2 eexists. split; [apply co_draft_multiple_cons|].
  split; [apply co_draft_multiple_cons|]. simpl.
  assert (foldl (∩) (pair_set df p) (pair_set df <$> others ++ more)
          ⊆ foldl (∩) (pair_set df p) (pair_set df <$> others)) as Hsub.
  { intros k. rewrite !elem_of_common. intros Hall q Hq. apply Hall.
    apply elem_of_cons in Hq as [->|Hq]; [by left|].
    right. apply elem_of_app. by left. }
  pose proof (subseteq_size _ _ Hsub) as Hsize.
  split; [done|]. split; [done|]. split; [done|].
  case_decide; [apply Qle_refl|]. by apply pct_mono.
Qed.

Lemma co_draft_multiple_more_players_witness :
  ∃ r1 r2, co_draft_multiple df_sample ["A"] = Return r1
    ∧ co_draft_multiple df_sample (["A"] ++ ["B"; "C"]) = Return r2
    ∧ common_pairs r2 ⊆ common_pairs r1
    ∧ num_first r2 = num_first r1
    ∧ (num_all r2 ≤ num_all r1)%nat
    ∧ (pct_together r2 <= pct_together r1)%Q.
Proof.
  apply (co_draft_multiple_more_players df_sample ["A"] ["B"; "C"]).
  discriminate.
Defined.

(** A player the frame does not know, anywhere in the list, empties the
    result: no common key, [num_all] and [pct_together] both 0. *)
Theorem co_draft_multiple_unknown_player (df : list Row) (players : list string)
    (unknown : string) :
  unknown ∈ players →
  (∀ r : Row, r ∈ df → PLAYERNAME r ≠ unknown) →
  ∃ res, co_draft_multiple df players = Return res
    ∧ common_pairs res = ∅
    ∧ num_all res = 0%nat
    ∧ (pct_together res == 0)%Q.
Proof.
  intros Hin Habsent. destruct players as [|p others].
  { by apply elem_of_nil in Hin. }
  eexists. split; [apply co_draft_multiple_cons|]. simpl.
  assert (foldl (∩) (pair_set df p) (pair_set df <$> others) = ∅) as ->.
  { apply set_eq. intros k. rewrite elem_of_common. split.
    - intros Hall. specialize (Hall unknown Hin).
      apply elem_of_pair_set in Hall as (r & Hr & Hname & _).
      by destruct (Habsent r Hr).
    - by intros ?%not_elem_of_empty. }
  split; [done|]. rewrite size_empty. split; [done|].
  case_decide; [reflexivity|].
  change (Q_of_nat 0) with 0%Q. unfold Qdiv. by rewrite !Qmult_0_l.
Qed.

Lemma co_draft_multiple_unknown_player_witness :
  ∃ res, co_draft_multiple df_sample ["A"; "Q"] = Return res
    ∧ common_pairs res = ∅
    ∧ num_all res = 0%nat
    ∧ (pct_together res == 0)%Q.
Proof.
  apply (co_draft_multiple_unknown_player df_sample ["A"; "Q"] "Q").
  - right. left.
  - apply Forall_forall. apply (bool_decide_unpack _). vm_compute. exact I.
Defined.

Lemma pct_full_inv a n :
  (0 < n)%nat → (Q_of_nat a / Q_of_nat n * 100 == 100)%Q → a = n.
Proof.
  intros Hn Hpct. pose proof (Q_of_nat_pos n Hn) as Hnq.
  assert (¬ Q_of_nat n == 0)%Q as Hnz.
  { intros Hz. rewrite Hz in Hnq. by apply Qlt_irrefl in Hnq. }
  assert (Q_of_nat a == Q_of_nat n)%Q as Heq.
  { setoid_replace (Q_of_nat a)
      with (Q_of_nat a / Q_of_nat n * 100 * (Q_of_nat n / 100))%Q
      using relation Qeq by (by field).
    rewrite Hpct. by field. }
  unfold Q_of_nat in Heq.
  pose proof (proj1 (inject_Z_injective _ _) Heq). lia.
Qed.

(** [pct_together] is 100 exactly when the first player occurs in the
    frame and every team that drafted the first player also drafted each
    of the others. *)
Theorem co_draft_multiple_always_together (df : list Row) (players : list string)
    (first : string) :
  players !! 0%nat = Some first →
  ∃ res, co_draft_multiple df players = Return res
    ∧ ((pct_together res == 100)%Q ↔
       (∃ r : Row, r ∈ df ∧ PLAYERNAME r = first)
       ∧ ∀ p, p ∈ players → pair_set df first ⊆ pair_set df p).
Proof.
  destruct players as [|p others]; [discriminate|]. intros [= ->].
  eexists. split; [apply co_draft_multiple_cons|]. simpl.
  pose proof (common_subseteq_first df first others) as Hsub.
  set (common := foldl (∩) (pair_set df first) (pair_set df <$> others)) in *.
  split.
  - intros Hpct. case_decide as Hz; [by apply Qeq_bool_neq in Hpct|].
    apply pct_full_inv in Hpct; [|lia].
    assert (common = pair_set df first) as Hcommon.
    { apply set_subseteq_size_eq; [done | lia]. }
    split.
    + destruct (size_pos_elem_of (pair_set df first)) as [k Hk]; [lia|].
      apply elem_of_pair_set in Hk as (r & ? & ? & _). eauto.
    + intros q Hq k Hk. rewrite <- Hcommon in Hk. unfold common in Hk.
      rewrite elem_of_common in Hk. by apply Hk.
  - intros [(r & Hr & Hname) Hall].
    assert (common = pair_set df first) as Hcommon.
    { apply set_eq. intros k. split; [apply Hsub|].
      intros Hk. unfold common. rewrite elem_of_common.
      intros q Hq. by apply (Hall q Hq). }
    rewrite Hcommon.
    assert (team_key r ∈ pair_set df first) as Hin
      by (apply elem_of_pair_set; eauto).
    assert (size (pair_set df first) ≠ 0%nat) as Hnz.
    { intros Hz%size_empty_inv. apply Hz in Hin. by apply not_elem_of_empty in Hin. }
    rewrite decide_False by done. apply pct_full. lia.
Qed.

Lemma co_draft_multiple_always_together_witness :
  ∃ res, co_draft_multiple df_sample ["B"; "A"; "C"] = Return res
    ∧ ((pct_together res == 100)%Q ↔
       (∃ r : Row, r ∈ df_sample ∧ PLAYERNAME r = "B")
       ∧ ∀ p, p ∈ ["B"; "A"; "C"] → pair_set df_sample "B" ⊆ pair_set df_sample p).
Proof.
  apply (co_draft_multiple_always_together df_sample ["B"; "A"; "C"] "B").
  reflexivity.
Defined.

(** ** More on the next-pick analyzer *)

Lemma length_filter_disjoint {A} (P Q : A → Prop)
    `{!∀ x, Decision (P x)} `{!∀ x, Decision (Q x)} (l : list A) :
  (∀ x, P x → Q x → False) →
  (length (filter P l) + length (filter Q l)
   = length (filter (λ x, P x ∨ Q x) l))%nat.
Proof.
  intros Hdisj. induction l as [|x l IH]; [done|].
  rewrite !filter_cons.
  destruct (decide (P x)) as [HP|HP]; destruct (decide (Q x)) as [HQ|HQ].
  - by destruct (Hdisj x).
  - rewrite decide_True by auto. simpl. lia.
  - rewrite decide_True by auto. simpl. lia.
  - rewrite decide_False by tauto. done.
Qed.

Lemma sum_count_of (l s : list string) :
  NoDup l →
  sum_list ((λ v, count_of v s) <$> l) = length (filter (λ x, x ∈ l) s).
Proof.
  induction 1 as [|v l Hv _ IH].
  - simpl. rewrite filter_none; [done|].
    apply Forall_forall. by intros x _ ?%elem_of_nil.
  - rewrite fmap_cons. simpl. rewrite IH. unfold count_of.
    rewrite (length_filter_disjoint (λ x, x = v) (λ x, x ∈ l)).
    + f_equal. apply list_filter_iff. intros x. rewrite elem_of_cons. tauto.
    + by intros x -> ?.
Qed.

Lemma sum_list_Permutation (l k : list nat) : l ≡ₚ k → sum_list l = sum_list k.
Proof. induction 1; simpl; lia. Qed.

(** The counts of [value_counts] add up to the length of the series. *)
Lemma sum_value_counts (s : list string) :
  sum_list (snd <$> value_counts s) = length s.
Proof.
  unfold value_counts.
  rewrite (sum_list_Permutation _ _
             (fmap_Permutation snd _ _ (merge_sort_Permutation _ _))).
  rewrite <- list_fmap_compose.
  rewrite (sum_count_of (remove_dups s) s (NoDup_remove_dups s)).
  f_equal. apply filter_all. apply Forall_forall.
  intros x Hx. by apply elem_of_remove_dups.
Qed.

Lemma length_omap_le {A B} (f : A → option B) (l : list A) :
  (length (omap f l) ≤ length l)%nat.
Proof.
  induction l as [|x l IH]; [done|]. csimpl.
  destruct (f x); simpl; lia.
Qed.

Lemma distribution_names (s : list string) :
  dist_next_player <$> distribution s = fst <$> value_counts s.
Proof. unfold distribution. rewrite <- list_fmap_compose. done. Qed.

Lemma distribution_counts (s : list string) :
  count <$> distribution s = snd <$> value_counts s.
Proof. unfold distribution. rewrite <- list_fmap_compose. done. Qed.

(** The table lists each next player once, by descending count; every
    count is at least 1, and the counts add up to the number of
    observations, which is at most the number of rows of the player. *)
Theorem next_pick_distribution_table (df : list Row) (player : string) :
  let table := next_pick_distribution df player in
  NoDup (dist_next_player <$> table)
  ∧ Sorted (λ a b : DistRow, (count b ≤ count a)%nat) table
  ∧ Forall (λ row : DistRow, (1 ≤ count row)%nat) table
  ∧ sum_list (count <$> table) = length (next_players df player)
  ∧ (sum_list (count <$> table)
     ≤ length (filter (λ r : Row, PLAYERNAME r = player) df))%nat.
Proof.
  intros table. subst table.
  rewrite next_pick_distribution_next_players.
  set (s := next_players df player).
  split; [rewrite distribution_names; apply NoDup_value_counts|].
  split.
  { unfold distribution.
    apply (Sorted_fmap _ count_ge); [done|].
    unfold value_counts. apply Sorted_merge_sort. apply _. }
  split.
  { apply Forall_forall. intros row [Hin ->]%elem_of_distribution.
    by apply count_of_pos. }
  rewrite distribution_counts, sum_value_counts. split; [done|].
  unfold s. rewrite next_players_spec. apply length_omap_le.
Qed.

(** Each percentage of the table is the row's count over the number of
    observations, times 100; it is positive and at most 100. *)
Theorem next_pick_distribution_pct (df : list Row) (player : string)
    (row : DistRow) :
  row ∈ next_pick_distribution df player →
  (pct row == Q_of_nat (count row)
              / Q_of_nat (length (next_players df player)) * 100
   ∧ 0 < pct row ∧ pct row <= 100)%Q.
Proof.
  rewrite next_pick_distribution_next_players.
  set (s := next_players df player). intros Hrow.
  pose proof (elem_of_distribution s row Hrow) as [Hname Hcount].
  pose proof (count_of_pos _ _ Hname) as Hpos. rewrite <- Hcount in Hpos.
  assert (count row ≤ length s)%nat as Hle.
  { rewrite Hcount. unfold count_of. apply length_filter. }
  unfold distribution in Hrow.
  apply list_elem_of_fmap in Hrow as (vc & -> & Hvc). simpl in *.
  rewrite sum_value_counts.
  split; [reflexivity|].
  destruct (pct_bounds vc.2 (length s) Hle ltac:(lia)) as [_ Hupper].
  split; [|done].
  apply Qmult_lt_0_compat; [|done].
  apply Qlt_shift_div_l; [apply Q_of_nat_pos; lia|].
  rewrite Qmult_0_l. by apply Q_of_nat_pos.
Qed.

Lemma next_pick_distribution_pct_witness :
  mkDistRow "B" 2 (Q_of_nat 2 / Q_of_nat 3 * 100) ∈ next_pick_distribution df_two_teams "A"
  ∧ (0 < Q_of_nat 2 / Q_of_nat 3 * 100 ∧ Q_of_nat 2 / Q_of_nat 3 * 100 <= 100)%Q.
Proof.
  assert (mkDistRow "B" 2 (Q_of_nat 2 / Q_of_nat 3 * 100)
          ∈ next_pick_distribution df_two_teams "A") as Hin.
  { vm_compute. left. }
  split; [exact Hin|].
  exact (proj2 (next_pick_distribution_pct df_two_teams "A" _ Hin)).
Defined.

Lemma earliest_name_Permutation (c c' : Row) (cs cs' : list Row) :
  c :: cs ≡ₚ c' :: cs' →
  (∀ x y : Row, x ∈ c :: cs → y ∈ c :: cs →
     OVERALLPICKNUM x = OVERALLPICKNUM y → PLAYERNAME x = PLAYERNAME y) →
  PLAYERNAME (earliest c cs) = PLAYERNAME (earliest c' cs').
Proof.
  intros Hperm Hnames.
  pose proof (earliest_elem_of c cs) as Hin.
  pose proof (earliest_elem_of c' cs') as Hin'.
  rewrite <- Hperm in Hin'.
  apply Hnames; [done | done |].
  pose proof (earliest_le c cs _ Hin') as Hle.
  rewrite Hperm in Hin. pose proof (earliest_le c' cs' _ Hin) as Hle'.
  lia.
Qed.

Lemma spec_next_pick_Permutation (df1 df2 : list Row) (r : Row) :
  df1 ≡ₚ df2 → unique_picks df1 →
  spec_next_pick df1 r = spec_next_pick df2 r.
Proof.
  intros Hperm Huniq.
  assert (later_picks df1 r ≡ₚ later_picks df2 r) as Hlater
    by (unfold later_picks; by rewrite Hperm).
  unfold spec_next_pick.
  destruct (later_picks df1 r) as [|c cs] eqn:H1;
    destruct (later_picks df2 r) as [|c' cs'] eqn:H2.
  - done.
  - by apply Permutation_nil_cons in Hlater.
  - symmetry in Hlater. by apply Permutation_nil_cons in Hlater.
  - f_equal. apply earliest_name_Permutation; [done|].
    intros x y Hx Hy Hpick. rewrite <- H1 in Hx, Hy.
    apply list_elem_of_filter in Hx as [[[Hdx _] _] Hx].
    apply list_elem_of_filter in Hy as [[[Hdy _] _] Hy].
    f_equal. f_equal. apply Huniq; [done | done | congruence | done].
Qed.

Lemma count_of_Permutation (v : string) (s1 s2 : list string) :
  s1 ≡ₚ s2 → count_of v s1 = count_of v s2.
Proof. intros Hperm. unfold count_of. by rewrite Hperm. Qed.

Lemma distribution_Permutation (s1 s2 : list string) :
  s1 ≡ₚ s2 → distribution s1 ≡ₚ distribution s2.
Proof.
  intros Hperm. unfold distribution.
  rewrite !sum_value_counts, (Permutation_length Hperm).
  apply fmap_Permutation. unfold value_counts.
  rewrite !merge_sort_Permutation.
  rewrite (list_fmap_ext (λ v, (v, count_of v s1)) (λ v, (v, count_of v s2))
             (remove_dups s1)).
  - apply fmap_Permutation.
    apply NoDup_Permutation; [apply NoDup_remove_dups..|].
    intros v. by rewrite !elem_of_remove_dups, Hperm.
  - intros _ v _. f_equal. by apply count_of_Permutation.
Qed.

(** The analyzer does not need the frame in any order: when pick numbers
    are unique within a draft, reordering the rows gives the same table,
    up to the order of its rows. *)
Theorem next_pick_distribution_row_order (df1 df2 : list Row) (player : string) :
  df1 ≡ₚ df2 → unique_picks df1 →
  next_pick_distribution df1 player ≡ₚ next_pick_distribution df2 player.
Proof.
  intros Hperm Huniq. rewrite !next_pick_distribution_next_players.
  apply distribution_Permutation. rewrite !next_players_spec.
  rewrite (list_omap_ext (spec_next_pick df1) (spec_next_pick df2)
             (filter (λ r : Row, PLAYERNAME r = player) df1)
             (filter (λ r : Row, PLAYERNAME r = player) df1)).
  - by rewrite Hperm.
  - apply Forall2_same_length_lookup_2; [done|].
    intros i x y Hx Hy. assert (x = y) as -> by congruence.
    by apply spec_next_pick_Permutation.
Qed.

Lemma unique_picks_df_sample : unique_picks df_sample.
Proof.
  intros r r' Hr Hr'. unfold df_sample in Hr, Hr'.
  repeat (apply elem_of_cons in Hr as [->|Hr]);
    try (by apply elem_of_nil in Hr);
    repeat (apply elem_of_cons in Hr' as [->|Hr']);
    try (by apply elem_of_nil in Hr');
    vm_compute; first [reflexivity | discriminate].
Defined.

Lemma next_pick_distribution_row_order_witness :
  next_pick_distribution df_sample "A"
  ≡ₚ next_pick_distribution (reverse df_sample) "A".
Proof.
  apply (next_pick_distribution_row_order df_sample (reverse df_sample) "A").
  - symmetry. apply reverse_Permutation.
  - exact unique_picks_df_sample.
Defined.

(** ** The page *)

Lemma elem_of_unique (s : list string) (x : string) : x ∈ unique s ↔ x ∈ s.
Proof.
  induction s as [|y s IH]; [done|]. simpl.
  rewrite !elem_of_cons, list_elem_of_filter, IH.
  destruct (decide (x = y)); tauto.
Qed.

Lemma NoDup_unique (s : list string) : NoDup (unique s).
Proof.
  induction s as [|y s IH]; simpl; [constructor|].
  apply NoDup_cons. split.
  - by intros [? _]%list_elem_of_filter.
  - by apply NoDup_filter.
Qed.

(** The choices offered in the sidebar are the names of the frame, each
    once, in increasing order. *)
Theorem player_list_sorted_names (df : list Row) :
  Sorted string_le (player_list df)
  ∧ NoDup (player_list df)
  ∧ ∀ p, p ∈ player_list df ↔ ∃ r : Row, r ∈ df ∧ PLAYERNAME r = p.
Proof.
  unfold player_list. split; [apply Sorted_merge_sort; apply _|]. split.
  - rewrite merge_sort_Permutation. apply NoDup_unique.
  - intros p. rewrite merge_sort_Permutation, elem_of_unique, list_elem_of_fmap.
    split; intros (r & ? & ?); eauto.
Qed.

Lemma elem_of_player_list (df : list Row) (p : string) :
  p ∈ player_list df ↔ ∃ r : Row, r ∈ df ∧ PLAYERNAME r = p.
Proof.
  unfold player_list.
  rewrite merge_sort_Permutation, elem_of_unique, list_elem_of_fmap.
  split; intros (r & ? & ?); eauto.
Qed.



(** A non-empty selection made from the offered names never meets the
    zero guard: the section shows statistics whose [num_first] is
    positive and whose percentage is the plain quotient. *)
Theorem co_draft_section_offered_players (df : list Row)
    (selected_players : list string) :
  selected_players ≠ [] →
  (∀ p, p ∈ selected_players → p ∈ player_list df) →
  ∃ stats roster_df,
    co_draft_section df selected_players = Return (CoDraftResults stats roster_df)
    ∧ (1 ≤ num_first stats)%nat
    ∧ (pct_together stats
       == Q_of_nat (num_all stats) / Q_of_nat (num_first stats) * 100)%Q.
Proof.
  intros Hne Hoffered. destruct selected_players as [|p others]; [done|].
  unfold co_draft_section. rewrite co_draft_multiple_cons.
  do 2 eexists. split; [reflexivity|]. cbn [num_first num_all pct_together].
  assert (size (pair_set df p) ≠ 0%nat) as Hnz.
  { destruct (proj1 (elem_of_player_list df p) (Hoffered p ltac:(by left)))
      as (r & Hr & Hname).
    assert (team_key r ∈ pair_set df p) as Hin
      by (apply elem_of_pair_set; eauto).
    intros Hz%size_empty_inv. apply Hz in Hin. by apply not_elem_of_empty in Hin. }
  split; [lia|]. rewrite decide_False by done. reflexivity.
Qed.

Lemma co_draft_section_offered_players_witness :
  ∃ stats roster_df,
    co_draft_section df_sample ["A"; "B"] = Return (CoDraftResults stats roster_df)
    ∧ (1 ≤ num_first stats)%nat
    ∧ (pct_together stats
       == Q_of_nat (num_all stats) / Q_of_nat (num_first stats) * 100)%Q.
Proof.
  apply (co_draft_section_offered_players df_sample ["A"; "B"]).
  - discriminate.
  - apply Forall_forall. apply (bool_decide_unpack _). vm_compute. exact I.
Defined.

(** The page on the sample frame: A and B were together on team 5 of
    draft 1, whose roster is shown. *)
Example co_draft_section_sample :
  ∃ stats, co_draft_section df_sample ["A"; "B"]
           = Return (CoDraftResults stats
                       (Some [mkRosterRecord 1 5 "A, C, B"])).
Proof. eexists. vm_compute. reflexivity. Qed.
